(** * Theatre.js core exports: a shallow embedding

    This development models the entry points of [@theatre/core] found in
    [src/theatre/core/src/coreExports.ts] ([getProject], [onChange] and
    their validators), the side table from public to private API objects,
    and the data model of the bundled type declarations (prop-type
    configs, the sequence player's interface).

    JavaScript values are an inductive type, exceptions are the left
    summand of a result, and module-level mutable state (the projects
    singleton, the table of private APIs, the core ticker, the reactive
    graph) is passed explicitly. Imports whose code is not among the
    sources are parameters, or are modelled from the specification where a
    definition says so. A finite number is kept as an exact rational: the
    functions taken from the sources only test numbers and do no arithmetic
    on them. *)

From Stdlib Require Import QArith Qcanon.
From stdpp Require Import numbers strings list gmap.

Set Default Proof Using "Type".

(** ** JavaScript values *)

Module JS.

(** A JavaScript number: a finite value (kept as an exact rational), NaN,
    or one of the two infinities. *)
Inductive number : Type :=
| Finite (q : Qc)
| NaN
| Infinity (negative : bool).

(** Plain data as it reaches the core: primitives, arrays and objects.
    An object lists its own enumerable properties in insertion order; a
    property is found by its first occurrence. Strings are sequences of
    code units below U+0100. *)
#[local] Unset Elimination Schemes.
Inductive value : Type :=
| Undefined
| Null
| Boolean (b : bool)
| Number (n : number)
| String (s : string)
| Array (elems : list value)
| Object (props : list (string * value)).
#[local] Set Elimination Schemes.

Inductive typeTag : Type :=
| TUndefined | TObject | TBoolean | TNumber | TString.

(** [typeof v] *)
Definition typeof (v : value) : typeTag :=
  match v with
  | Undefined => TUndefined
  | Null => TObject
  | Boolean _ => TBoolean
  | Number _ => TNumber
  | String _ => TString
  | Array _ => TObject
  | Object _ => TObject
  end.

Definition number_truthy (n : number) : bool :=
  match n with
  | Finite q => negb (bool_decide (q = 0%Qc))
  | NaN => false
  | Infinity _ => true
  end.

(** ToBoolean: what [if (v)] tests. *)
Definition truthy (v : value) : bool :=
  match v with
  | Undefined => false
  | Null => false
  | Boolean b => b
  | Number n => number_truthy n
  | String s => negb (bool_decide (s = EmptyString))
  | Array _ => true
  | Object _ => true
  end.

(** [Array.isArray(v)] *)
Definition isArray (v : value) : bool :=
  match v with Array _ => true | _ => false end.

(** [v == null] *)
Definition looseEqNull (v : value) : bool :=
  match v with Undefined | Null => true | _ => false end.

(** [v === s] for a string [s] *)
Definition strictEqString (v : value) (s : string) : bool :=
  match v with String t => bool_decide (t = s) | _ => false end.

(** Own-property lookup of an object's property list. *)
Fixpoint lookupProp (k : string) (props : list (string * value)) : option value :=
  match props with
  | [] => None
  | (k', v) :: rest => if bool_decide (k' = k) then Some v else lookupProp k rest
  end.

(** Errors are kept as a class and a message template with its
    interpolated arguments. *)
Inductive message : Type :=
| MsgConfigChanged (id : value)
| MsgStateUnreadable (projectId : value)
| MsgProjectIdNotString (readableType : string)
| MsgProjectIdWhitespace (given : string)
| MsgProjectIdTooShort (given : string)
| MsgNotPointerOrPrism
| MsgCannotReadProperty (key : string)
| MsgText (text : string).

Inductive error : Type :=
| Error (m : message)
| InvalidArgumentError (m : message)
| TypeError (m : message).

Definition isInvalidArgument (e : error) : bool :=
  match e with InvalidArgumentError _ => true | _ => false end.

(** [v.k] for a property name [k] that no prototype defines: a TypeError
    on [null] and [undefined], the own property of an object, and
    [undefined] on every other value. *)
Definition getMember (v : value) (k : string) : error + value :=
  match v with
  | Undefined | Null => inl (TypeError (MsgCannotReadProperty k))
  | Object props => inr (default Undefined (lookupProp k props))
  | _ => inr Undefined
  end.

(** White space and line terminators below U+0100, the characters
    [String.prototype.trim] strips. *)
Definition isWhiteSpace (c : Ascii.ascii) : bool :=
  let n := Ascii.nat_of_ascii c in
  bool_decide (n = 9 ∨ n = 10 ∨ n = 11 ∨ n = 12 ∨ n = 13 ∨ n = 32 ∨ n = 160)%nat.

Fixpoint trimStart (s : string) : string :=
  match s with
  | EmptyString => EmptyString
  | String.String c rest => if isWhiteSpace c then trimStart rest else s
  end.

(** [trimEnd s]: drop the trailing white space; a suffix that is all
    white space collapses to the empty string. *)
Fixpoint trimEnd (s : string) : string :=
  match s with
  | EmptyString => EmptyString
  | String.String c rest =>
      match trimEnd rest with
      | EmptyString => if isWhiteSpace c then EmptyString else String.String c EmptyString
      | rest' => String.String c rest'
      end
  end.

(** [s.trim()] *)
Definition trim (s : string) : string := trimEnd (trimStart s).

(** Structural equality of plain data, used where the code compares
    delivered values. *)
Definition number_eqb (a b : number) : bool :=
  match a, b with
  | Finite p, Finite q => bool_decide (p = q)
  | NaN, NaN => true
  | Infinity s, Infinity t => bool_decide (s = t)
  | _, _ => false
  end.

Fixpoint value_eqb (a b : value) {struct a} : bool :=
  match a, b with
  | Undefined, Undefined => true
  | Null, Null => true
  | Boolean x, Boolean y => bool_decide (x = y)
  | Number x, Number y => number_eqb x y
  | String x, String y => bool_decide (x = y)
  | Array xs, Array ys =>
      (fix go (xs ys : list value) {struct xs} : bool :=
         match xs, ys with
         | [], [] => true
         | x :: xs', y :: ys' => value_eqb x y && go xs' ys'
         | _, _ => false
         end) xs ys
  | Object ps, Object qs =>
      (fix go (ps qs : list (string * value)) {struct ps} : bool :=
         match ps, qs with
         | [], [] => true
         | (k, x) :: ps', (l, y) :: qs' =>
             bool_decide (k = l) && value_eqb x y && go ps' qs'
         | _, _ => false
         end) ps qs
  | _, _ => false
  end.

End JS.

(** ** Results and state passing *)

Module Eff.

(** A computation over module state [S] that returns an [A] or throws. *)
Definition M (S A : Type) : Type := S → (JS.error + A) * S.

Definition ret {S A} (a : A) : M S A := λ s, (inr a, s).

Definition throw {S A} (e : JS.error) : M S A := λ s, (inl e, s).

Definition bind {S A B} (m : M S A) (k : A → M S B) : M S B :=
  λ s, match m s with
       | (inl e, s') => (inl e, s')
       | (inr a, s') => k a s'
       end.

Definition lift {S A} (r : JS.error + A) : M S A := λ s, (r, s).

Definition gets {S A} (f : S → A) : M S A := λ s, (inr (f s), s).

Definition modify {S} (f : S → S) : M S unit := λ s, (inr tt, f s).

End Eff.

Declare Scope eff_scope.
Delimit Scope eff_scope with eff.
Notation "'let*' x ':=' m 'in' k" := (Eff.bind m (λ x, k))
  (at level 10, x name, m at level 100, k at level 200) : eff_scope.

(** ** [getProject] *)

Module Core.

Import Eff.

(** [process.env.NODE_ENV]: the build the code runs in. *)
Inductive nodeEnv : Type := Production | Development.

(** [process.env.NODE_ENV !== 'production'] *)
Definition notProduction (env : nodeEnv) : bool :=
  match env with Production => false | Development => true end.

(** A public API object, known by its identity. *)
Record IProject : Type := { objectId : nat }.

(** What [getProject] reads of a private [Project]. *)
Record Project : Type := {
  config : JS.value;
  publicApi : IProject;
}.

(** The [_debug] calls of the project logger, in call order. *)
Inductive debugEntry : Type :=
| ValidatedProjectName (projectName : JS.value)
| ShallowValidatedState
| DeepValidatedState
| NoConfigState.

(** Module-level state: the projects singleton, the allocator of object
    identities and the logger's output. *)
Record store : Type := {
  projects : gmap string Project;
  nextObjectId : nat;
  debugLog : list debugEntry;
}.

Definition emptyStore : store :=
  {| projects := ∅; nextObjectId := 0; debugLog := [] |}.

(** Imports of [coreExports.ts] whose code is outside the repository's
    sources: the schema version constant of [globals], [fast-deep-equal],
    [validateName] (which throws or returns), [userReadableTypeOfValue],
    and the coercion of a value to a property key. *)
Class Imports : Type := {
  currentProjectStateDefinitionVersion : string;
  deepEqual : JS.value → JS.value → bool;
  validateName : JS.value → string → bool → option JS.error;
  userReadableTypeOfValue : JS.value → string;
  toPropertyKey : JS.value → string;
}.

Section WithImports.

Context `{Imports}.

(** The key a project id selects in the singleton's record. *)
Definition projectKey (id : JS.value) : string :=
  match id with JS.String s => s | _ => toPropertyKey id end.

(** Modelled from the spec: [projectsSingleton.get] of the missing
    [projects/projectsSingleton] module, the lookup of the project
    registered under an id. *)
Definition projectsSingleton_get (id : JS.value) : M store (option Project) :=
  gets (λ st, projects st !! projectKey id).

(** Modelled from the spec: the constructor of the missing
    [projects/TheatreProject] module. A project is constructed once from
    the supplied config, registered under its id and handed out through
    a fresh public API object. *)
Definition TheatreProject_new (id config : JS.value) : M store IProject :=
  λ st,
    let pub := {| objectId := nextObjectId st |} in
    (inr pub,
     {| projects := <[projectKey id := {| config := config; publicApi := pub |}]> (projects st);
        nextObjectId := S (nextObjectId st);
        debugLog := debugLog st |}).

(** [plogger._debug(...)] *)
Definition debug (e : debugEntry) : M store unit :=
  modify (λ st, {| projects := projects st;
                   nextObjectId := nextObjectId st;
                   debugLog := debugLog st ++ [e] |}).

(** [shallowValidateOnDiskState] *)
Definition shallowValidateOnDiskState (projectId s : JS.value) : JS.error + unit :=
  if JS.isArray s then inl (JS.InvalidArgumentError (JS.MsgStateUnreadable projectId))
  else if JS.looseEqNull s then inl (JS.InvalidArgumentError (JS.MsgStateUnreadable projectId))
  else
    match JS.getMember s "definitionVersion" with
    | inl e => inl e
    | inr v =>
        if negb (JS.strictEqString v currentProjectStateDefinitionVersion)
        then inl (JS.InvalidArgumentError (JS.MsgStateUnreadable projectId))
        else inr tt
    end.

(** [deepValidateOnDiskState] *)
Definition deepValidateOnDiskState (projectId s : JS.value) : JS.error + unit :=
  shallowValidateOnDiskState projectId s.

(** [validateProjectIdOrThrow] *)
Definition validateProjectIdOrThrow (value : JS.value) : JS.error + unit :=
  match value with
  | JS.String s =>
      let idTrimmed := JS.trim s in
      if negb (bool_decide (String.length idTrimmed = String.length s))
      then inl (JS.InvalidArgumentError (JS.MsgProjectIdWhitespace s))
      else if bool_decide (String.length idTrimmed < 3)%nat
      then inl (JS.InvalidArgumentError (JS.MsgProjectIdTooShort s))
      else inr tt
  | _ =>
      inl (JS.InvalidArgumentError
             (JS.MsgProjectIdNotString (userReadableTypeOfValue value)))
  end.

(** [validateName(id, '...', true)] as [getProject] calls it. *)
Definition validateNameOrThrow (id : JS.value) : JS.error + unit :=
  match validateName id "projectName in Theatre.getProject(projectName)" true with
  | Some e => inl e
  | None => inr tt
  end.

(** The default of the [config] parameter. *)
Definition configOrDefault (config : JS.value) : JS.value :=
  match config with JS.Undefined => JS.Object [] | _ => config end.

(** [getProject(id, config)] *)
Definition getProject (env : nodeEnv) (id configArg : JS.value) : M store IProject :=
  (let config := configOrDefault configArg in
   let* existingProject := projectsSingleton_get id in
   match existingProject with
   | Some existing =>
       if notProduction env then
         if negb (deepEqual config existing.(Core.config))
         then throw (JS.Error (JS.MsgConfigChanged id))
         else ret existing.(publicApi)
       else ret existing.(publicApi)
   | None =>
       let* _ :=
         if notProduction env then
           let* _ := lift (validateNameOrThrow id) in
           let* _ := lift (validateProjectIdOrThrow id) in
           debug (ValidatedProjectName id)
         else ret tt in
       let* state := lift (JS.getMember config "state") in
       let* _ :=
         if JS.truthy state then
           if notProduction env then
             let* _ := lift (shallowValidateOnDiskState id state) in
             debug ShallowValidatedState
           else
             let* _ := lift (deepValidateOnDiskState id state) in
             debug DeepValidatedState
         else debug NoConfigState in
       TheatreProject_new id config
   end)%eff.

(** A sequence of [getProject] calls whose callers go on after an
    exception. *)
Definition getProjects (env : nodeEnv) (calls : list (JS.value * JS.value))
    (st : store) : store :=
  foldl (λ st call, (getProject env call.1 call.2 st).2) st calls.

End WithImports.

(** An instance of the imports for closed examples: structural equality
    for [deepEqual], a [validateName] that rejects non-strings. *)
Definition exampleImports : Imports := {|
  currentProjectStateDefinitionVersion := "0.4.0";
  deepEqual := JS.value_eqb;
  validateName := λ v _ shouldThrow,
    match v with
    | JS.String _ => None
    | _ => if shouldThrow
           then Some (JS.InvalidArgumentError (JS.MsgText "name must be a string"))
           else None
    end;
  userReadableTypeOfValue := λ v,
    match JS.typeof v with
    | JS.TUndefined => "undefined"
    | JS.TObject => "object"
    | JS.TBoolean => "boolean"
    | JS.TNumber => "number"
    | JS.TString => "string"
    end;
  toPropertyKey := λ _, "[object Object]";
|}.

End Core.

(** ** Pointers, prisms and the ticker-driven graph *)

Module Dataverse.

Import Eff.

Definition path : Type := list string.

(** A pointer is a path over the implicit root value; building one looks
    nothing up. *)
Record pointer : Type := { pointerPath : path }.

(** A prism is a live value computed from the root along a path. *)
Record prism : Type := { prismPath : path }.

(** Field by field resolution of a path against a value; a missing field
    resolves to [undefined]. *)
Fixpoint resolve (root : JS.value) (p : path) : JS.value :=
  match p with
  | [] => root
  | k :: rest =>
      match root with
      | JS.Object props =>
          match JS.lookupProp k props with
          | Some v => resolve v rest
          | None => JS.Undefined
          end
      | _ => JS.Undefined
      end
  end.

(** Assignment to a property: the first occurrence is replaced, a new
    property goes last. *)
Fixpoint setProp (k : string) (v : JS.value) (props : list (string * JS.value))
    : list (string * JS.value) :=
  match props with
  | [] => [(k, v)]
  | (k', v') :: rest =>
      if bool_decide (k' = k) then (k, v) :: rest else (k', v') :: setProp k v rest
  end.

(** The root with the value at a path replaced. *)
Fixpoint setAt (root : JS.value) (p : path) (v : JS.value) : JS.value :=
  match p with
  | [] => v
  | k :: rest =>
      match root with
      | JS.Object props =>
          JS.Object (setProp k (setAt (default JS.Undefined (JS.lookupProp k props)) rest v) props)
      | _ => JS.Object [(k, setAt JS.Undefined rest v)]
      end
  end.

Fixpoint isPrefix (p q : path) : bool :=
  match p, q with
  | [], _ => true
  | k :: p', l :: q' => bool_decide (k = l) && isPrefix p' q'
  | _ :: _, [] => false
  end.

(** Two paths intersect when one is equal to, a prefix of, or an extension
    of the other. *)
Definition intersects (p q : path) : bool := isPrefix p q || isPrefix q p.

(** An active subscription: the observed prism, the ticker that flushes
    it, the callback, and the value delivered last. *)
Record subscription : Type := {
  subPrism : prism;
  subTicker : nat;
  subCallback : nat;
  subLast : option JS.value;
}.

(** One call of a callback. *)
Record invocation : Type := {
  invSubscription : nat;
  invCallback : nat;
  invValue : JS.value;
}.

(** The live value tree, the dirty paths, the active subscriptions by
    their unsubscribe handle, and the callbacks called so far, in order. *)
Record graph : Type := {
  root : JS.value;
  dirty : list path;
  subscriptions : gmap nat subscription;
  nextSubscription : nat;
  invocations : list invocation;
}.

Definition emptyGraph : graph :=
  {| root := JS.Object []; dirty := []; subscriptions := ∅;
     nextSubscription := 0; invocations := [] |}.

(** Modelled from the spec: [pointerToPrism] of the missing dataverse
    package, the prism that resolves the pointer's path against the live
    root when read. *)
Definition pointerToPrism (p : pointer) : prism :=
  {| prismPath := pointerPath p |}.

(** Modelled from the spec: reading a prism resolves its path against the
    current root. *)
Definition getValue (pr : prism) (g : graph) : JS.value :=
  resolve (root g) (prismPath pr).

(** Modelled from the spec: [prism.onChange(ticker, callback, immediate)]
    of the missing dataverse package. The callback is registered; with
    [immediate] it is called once, at once, with the current value. The
    result is the handle of the unsubscribe function. *)
Definition Prism_onChange (pr : prism) (ticker callback : nat) (immediate : bool)
    (g : graph) : nat * graph :=
  let id := nextSubscription g in
  let v := getValue pr g in
  (id,
   {| root := root g;
      dirty := dirty g;
      subscriptions :=
        <[id := {| subPrism := pr; subTicker := ticker; subCallback := callback;
                   subLast := if immediate then Some v else None |}]> (subscriptions g);
      nextSubscription := S id;
      invocations :=
        invocations g ++
        (if immediate
         then [{| invSubscription := id; invCallback := callback; invValue := v |}]
         else []) |}).

(** Modelled from the spec: the unsubscribe function; calling it again, or
    for a subscription already gone, does nothing. *)
Definition unsubscribe (id : nat) (g : graph) : graph :=
  {| root := root g; dirty := dirty g;
     subscriptions := delete id (subscriptions g);
     nextSubscription := nextSubscription g;
     invocations := invocations g |}.

(** Modelled from the spec: a write to the root is recorded as a dirty
    path. *)
Definition write (p : path) (v : JS.value) (g : graph) : graph :=
  {| root := setAt (root g) p v; dirty := dirty g ++ [p];
     subscriptions := subscriptions g;
     nextSubscription := nextSubscription g;
     invocations := invocations g |}.

(** Modelled from the spec: what a tick of [ticker] delivers to one
    subscription. If the subscription belongs to the ticker and a dirty path
    intersects its path, the path is resolved again, and the value is
    delivered unless it equals the one delivered last. *)
Definition refresh (ticker : nat) (g : graph) (s : subscription) : option JS.value :=
  if bool_decide (subTicker s = ticker)
     && existsb (intersects (prismPath (subPrism s))) (dirty g)
  then
    let v := getValue (subPrism s) g in
    match subLast s with
    | Some old => if JS.value_eqb v old then None else Some v
    | None => Some v
    end
  else None.

Definition delivered (ticker : nat) (g : graph) (entry : nat * subscription)
    : option invocation :=
  (λ v, {| invSubscription := entry.1;
           invCallback := subCallback entry.2;
           invValue := v |}) <$> refresh ticker g entry.2.

Definition remember (ticker : nat) (g : graph) (s : subscription) : subscription :=
  match refresh ticker g s with
  | Some v => {| subPrism := subPrism s; subTicker := subTicker s;
                 subCallback := subCallback s; subLast := Some v |}
  | None => s
  end.

(** Modelled from the spec: [tick] flushes one round of dirty-path
    propagation for the ticker and drains the dirty paths. *)
Definition tick (ticker : nat) (g : graph) : graph :=
  {| root := root g;
     dirty := [];
     subscriptions := remember ticker g <$> subscriptions g;
     nextSubscription := nextSubscription g;
     invocations :=
       invocations g ++ omap (delivered ticker g) (map_to_list (subscriptions g)) |}.

(** What can happen to the graph between two observations. *)
Inductive event : Type :=
| Write (p : path) (v : JS.value)
| Tick (ticker : nat)
| Subscribe (pr : prism) (ticker callback : nat) (immediate : bool)
| Unsubscribe (id : nat).

Definition step (g : graph) (ev : event) : graph :=
  match ev with
  | Write p v => write p v g
  | Tick ticker => tick ticker g
  | Subscribe pr ticker callback immediate =>
      (Prism_onChange pr ticker callback immediate g).2
  | Unsubscribe id => unsubscribe id g
  end.

Definition run (evs : list event) (g : graph) : graph := foldl step g evs.

(** The calls made for one subscription. *)
Definition callsOf (id : nat) (l : list invocation) : list invocation :=
  filter (λ i, invSubscription i = id) l.

End Dataverse.

(** ** The side table of private APIs *)

Module PrivateAPIs.

(** [publicAPIToPrivateAPIMap]: a weak map from the identity of a public
    API object to its private API object. *)
Abbreviation table P := (gmap nat P) (only parsing).

(** [privateAPI(pub)] *)
Definition privateAPI {P} (pub : nat) (m : table P) : option P := m !! pub.

(** [setPrivateAPI(pub, priv)] *)
Definition setPrivateAPI {P} (pub : nat) (priv : P) (m : table P) : table P :=
  <[pub := priv]> m.

End PrivateAPIs.

(** ** [onChange] *)

Module Change.

Import Eff Dataverse.

(** A raf driver's public object. *)
Record IRafDriver : Type := { driverId : nat }.

(** What [onChange] reads of a raf driver's private API. *)
Record RafDriverPrivateAPI : Type := { ticker : nat }.

(** What [onChange] may be handed as its first argument. *)
Inductive argument : Type :=
| ArgPointer (p : pointer)
| ArgPrism (pr : prism)
| ArgValue (v : JS.value).

(** Modelled from the spec: [isPointer] of the missing dataverse package. *)
Definition isPointer (a : argument) : bool :=
  match a with ArgPointer _ => true | _ => false end.

(** Modelled from the spec: [isPrism] of the missing dataverse package. *)
Definition isPrism (a : argument) : bool :=
  match a with ArgPrism _ => true | _ => false end.

(** Module-level state [onChange] touches: the private APIs of the raf
    drivers, the core ticker, and the graph. *)
Record world : Type := {
  privateAPIs : PrivateAPIs.table RafDriverPrivateAPI;
  coreTicker : option nat;
  nextTicker : nat;
  graph : Dataverse.graph;
}.

Definition withGraph (w : world) (g : Dataverse.graph) : world :=
  {| privateAPIs := privateAPIs w; coreTicker := coreTicker w;
     nextTicker := nextTicker w; graph := g |}.

(** Modelled from the spec: [getCoreTicker] of the missing [coreTicker]
    module, the process-wide default ticker, made on first use and never
    made again. *)
Definition getCoreTicker : M world nat :=
  λ w,
    match coreTicker w with
    | Some t => (inr t, w)
    | None =>
        (inr (nextTicker w),
         {| privateAPIs := privateAPIs w; coreTicker := Some (nextTicker w);
            nextTicker := S (nextTicker w); graph := graph w |})
    end.

(** [rafDriver ? privateAPI(rafDriver).ticker : getCoreTicker()] *)
Definition tickerOf (rafDriver : option IRafDriver) : M world nat :=
  match rafDriver with
  | Some driver =>
      (let* priv := gets (λ w, PrivateAPIs.privateAPI (driverId driver) (privateAPIs w)) in
       match priv with
       | Some p => ret (ticker p)
       | None => throw (JS.TypeError (JS.MsgCannotReadProperty "ticker"))
       end)%eff
  | None => getCoreTicker
  end.

(** [pr.onChange(ticker, callback, true)] on the world's graph. *)
Definition subscribeNow (pr : prism) (ticker callback : nat) : M world nat :=
  λ w,
    let r := Prism_onChange pr ticker callback true (graph w) in
    (inr r.1, withGraph w r.2).

(** [onChange(pointer, callback, rafDriver)] *)
Definition onChange (pointer : argument) (callback : nat)
    (rafDriver : option IRafDriver) : M world nat :=
  (let* ticker := tickerOf rafDriver in
   match pointer with
   | ArgPointer p =>
       let pr := pointerToPrism p in
       subscribeNow pr ticker callback
   | ArgPrism pr => subscribeNow pr ticker callback
   | ArgValue _ => throw (JS.Error JS.MsgNotPointerOrPrism)
   end)%eff.

(** The prism an argument stands for. *)
Definition observed (a : argument) : option prism :=
  match a with
  | ArgPointer p => Some (pointerToPrism p)
  | ArgPrism pr => Some pr
  | ArgValue _ => None
  end.

Definition emptyWorld : world :=
  {| privateAPIs := ∅; coreTicker := None; nextTicker := 0; graph := emptyGraph |}.

End Change.

(** ** Prop types *)

Module PropTypes.

(** [Interpolator<T>]: from [left] to [right] by [progression]. *)
Definition Interpolator (T : Type) : Type := T → T → Qc → T.

(** [ISimplePropType]: a label, a default (the field [default] of the
    declaration) and an interpolator. *)
Record ISimplePropType (V : Type) : Type := {
  label : option string;
  defaultValue : V;
  interpolate : Interpolator V;
}.
Arguments label {V} _.
Arguments defaultValue {V} _.
Arguments interpolate {V} _.

(** [PropTypeConfig_Number]; the nudge function only serves the editor. *)
Record PropTypeConfig_Number : Type := {
  numberBase : ISimplePropType Qc;
  range : option (Qc * Qc);
  nudgeMultiplier : option Qc;
}.

Inductive menuOrSwitch : Type := Menu | Switch.

(** [PropTypeConfig_StringLiteral] *)
Record PropTypeConfig_StringLiteral : Type := {
  literalBase : ISimplePropType string;
  valuesAndLabels : list (string * string);
  as_ : menuOrSwitch;
}.

(** [Rgba] *)
Record Rgba : Type := { r : Qc; g : Qc; b : Qc; a : Qc }.

(** The [id] of an [Asset] or a [File]: a string or [undefined]. *)
Definition assetId : Type := option string.

(** [PropTypeConfig]: the simple configs, and the two composite ones with
    their sub-configs in declared order. *)
#[local] Unset Elimination Schemes.
Inductive PropTypeConfig : Type :=
| ConfNumber (c : PropTypeConfig_Number)
| ConfBoolean (c : ISimplePropType bool)
| ConfString (c : ISimplePropType string)
| ConfStringLiteral (c : PropTypeConfig_StringLiteral)
| ConfRgba (c : ISimplePropType Rgba)
| ConfImage (c : ISimplePropType assetId)
| ConfFile (c : ISimplePropType assetId)
| ConfCompound (lbl : option string) (props : list (string * PropTypeConfig))
| ConfEnum (lbl : option string) (cases : list (string * PropTypeConfig))
    (defaultCase : string).
#[local] Set Elimination Schemes.

(** The names of an ordered mapping. *)
Definition keys {A} (l : list (string * A)) : list string := l.*1.

(** A config is well formed when no mapping in it names a key twice. *)
Fixpoint wellFormed (c : PropTypeConfig) : Prop :=
  match c with
  | ConfCompound _ props =>
      NoDup (keys props)
      ∧ (fix all (ps : list (string * PropTypeConfig)) : Prop :=
           match ps with
           | [] => True
           | (_, c') :: ps' => wellFormed c' ∧ all ps'
           end) props
  | ConfEnum _ cases _ =>
      NoDup (keys cases)
      ∧ (fix all (ps : list (string * PropTypeConfig)) : Prop :=
           match ps with
           | [] => True
           | (_, c') :: ps' => wellFormed c' ∧ all ps'
           end) cases
  | _ => True
  end.

Definition finiteNumber (v : JS.value) : option Qc :=
  match v with JS.Number (JS.Finite q) => Some q | _ => None end.

Definition numberValue (q : Qc) : JS.value := JS.Number (JS.Finite q).

Definition finiteProp (k : string) (o : list (string * JS.value)) : option Qc :=
  JS.lookupProp k o ≫= finiteNumber.

(** Modelled from the spec: the sanitizer of an rgba config accepts an
    object whose four channels are finite numbers and builds a new object
    from them. *)
Definition sanitizeRgba (json : JS.value) : option JS.value :=
  match json with
  | JS.Object o =>
      match finiteProp "r" o, finiteProp "g" o, finiteProp "b" o, finiteProp "a" o with
      | Some cr, Some cg, Some cb, Some ca =>
          Some (JS.Object [("r", numberValue cr); ("g", numberValue cg);
                           ("b", numberValue cb); ("a", numberValue ca)])
      | _, _, _, _ => None
      end
  | _ => None
  end.

(** Modelled from the spec: the sanitizer of an image or file config
    accepts an object of the right [type] whose [id] is a string or
    [undefined] and builds a new asset reference. *)
Definition sanitizeAsset (kind : string) (json : JS.value) : option JS.value :=
  match json with
  | JS.Object o =>
      match JS.lookupProp "type" o with
      | Some (JS.String t) =>
          if bool_decide (t = kind) then
            match default JS.Undefined (JS.lookupProp "id" o) with
            | JS.String id =>
                Some (JS.Object [("type", JS.String kind); ("id", JS.String id)])
            | JS.Undefined =>
                Some (JS.Object [("type", JS.String kind); ("id", JS.Undefined)])
            | _ => None
            end
          else None
      | _ => None
      end
  | _ => None
  end.

(** How the value of an enum prop carries its case tag and its payload;
    the sources and the spec leave the representation open. *)
Class EnumValues : Type := {
  enumTag : JS.value → option string;
  enumPayload : JS.value → JS.value;
  enumMake : string → JS.value → JS.value;
  enumTag_make : ∀ tag payload, enumTag (enumMake tag payload) = Some tag;
  enumPayload_make : ∀ tag payload, enumPayload (enumMake tag payload) = payload;
}.

Section Sanitize.

Context `{EnumValues}.

(** Modelled from the spec: [deserializeAndSanitize], declared on every
    config without a body in the sources; [None] is [undefined]. A simple
    config checks the primitive's shape and, for numbers, finiteness. A
    compound config sanitizes field by field in declared order and leaves
    out the fields that fail. An enum config checks the case tag, then
    sanitizes the payload with the selected case. *)
Fixpoint sanitize (config : PropTypeConfig) (json : JS.value) {struct config}
    : option JS.value :=
  match config with
  | ConfNumber _ => numberValue <$> finiteNumber json
  | ConfBoolean _ =>
      match json with JS.Boolean _ => Some json | _ => None end
  | ConfString _ =>
      match json with JS.String _ => Some json | _ => None end
  | ConfStringLiteral c =>
      match json with
      | JS.String s =>
          if bool_decide (s ∈ keys (valuesAndLabels c)) then Some json else None
      | _ => None
      end
  | ConfRgba _ => sanitizeRgba json
  | ConfImage _ => sanitizeAsset "image" json
  | ConfFile _ => sanitizeAsset "file" json
  | ConfCompound _ props =>
      match json with
      | JS.Object o =>
          Some (JS.Object
            ((fix fields (ps : list (string * PropTypeConfig)) : list (string * JS.value) :=
                match ps with
                | [] => []
                | (k, c) :: ps' =>
                    match JS.lookupProp k o with
                    | Some v =>
                        match sanitize c v with
                        | Some v' => (k, v') :: fields ps'
                        | None => fields ps'
                        end
                    | None => fields ps'
                    end
                end) props))
      | _ => None
      end
  | ConfEnum _ cases _ =>
      match enumTag json with
      | Some tag =>
          (fix select (cs : list (string * PropTypeConfig)) : option JS.value :=
             match cs with
             | [] => None
             | (k, c) :: cs' =>
                 if bool_decide (k = tag)
                 then enumMake tag <$> sanitize c (enumPayload json)
                 else select cs'
             end) cases
      | None => None
      end
  end.

(** The sanitizer as a function to values: a miss is [undefined]. *)
Definition deserializeAndSanitize (config : PropTypeConfig) (json : JS.value) : JS.value :=
  default JS.Undefined (sanitize config json).

(** The fields a compound config keeps of an object. *)
Fixpoint sanitizeFields (ps : list (string * PropTypeConfig))
    (o : list (string * JS.value)) : list (string * JS.value) :=
  match ps with
  | [] => []
  | (k, c) :: ps' =>
      match JS.lookupProp k o with
      | Some v =>
          match sanitize c v with
          | Some v' => (k, v') :: sanitizeFields ps' o
          | None => sanitizeFields ps' o
          end
      | None => sanitizeFields ps' o
      end
  end.

(** The case an enum config selects for a tag. *)
Fixpoint selectCase (tag : string) (cs : list (string * PropTypeConfig))
    : option PropTypeConfig :=
  match cs with
  | [] => None
  | (k, c) :: cs' => if bool_decide (k = tag) then Some c else selectCase tag cs'
  end.

End Sanitize.

(** Enum values as objects [{case, value}], for closed examples. *)
Definition exampleEnumTag (v : JS.value) : option string :=
  match v with
  | JS.Object o =>
      match JS.lookupProp "case" o with
      | Some (JS.String tag) => Some tag
      | _ => None
      end
  | _ => None
  end.

Definition exampleEnumPayload (v : JS.value) : JS.value :=
  match v with
  | JS.Object o => from_option id JS.Undefined (JS.lookupProp "value" o)
  | _ => JS.Undefined
  end.

Definition exampleEnumMake (tag : string) (payload : JS.value) : JS.value :=
  JS.Object [("case", JS.String tag); ("value", payload)].

Definition exampleEnumValues : EnumValues :=
  {| enumTag := exampleEnumTag;
     enumPayload := exampleEnumPayload;
     enumMake := exampleEnumMake;
     enumTag_make := λ _ _, eq_refl;
     enumPayload_make := λ _ _, eq_refl |}.

End PropTypes.

(** ** The timeline player *)

Module Sequences.

(** [IPlaybackRange] *)
Definition IPlaybackRange : Type := (Qc * Qc)%type.

(** [IPlaybackDirection] *)
Inductive IPlaybackDirection : Type :=
| Normal | Reverse | Alternate | AlternateReverse.

(** The [conf] of [play]; an [iterationCount] of [None] is [Infinity]. *)
Record playConf : Type := {
  iterationCount : option positive;
  range : IPlaybackRange;
  rate : Qc;
  direction : IPlaybackDirection;
}.

(** The promise [play] returns. *)
Inductive promise : Type :=
| Pending
| Resolved (finished : bool)
| Rejected.

(** A playback under way: its configuration, the iterations completed,
    the time of the last tick, and its completion promise. *)
Record playback : Type := {
  conf : playConf;
  iterationsDone : nat;
  lastTick : option Qc;
  completion : nat;
}.

Inductive status : Type :=
| Idle
| Playing (pb : playback)
| Paused.

(** The player: its state, the position of the playhead, and the promises
    handed out so far. *)
Record player : Type := {
  state : status;
  position : Qc;
  promises : gmap nat promise;
  nextPromise : nat;
}.

(** What a tick makes of a playback: it goes on from a new position, or
    all its iterations are over. *)
Inductive progress : Type :=
| GoesOn (position : Qc) (iterationsDone : nat)
| Over (position : Qc).

(** How the playhead moves: from the configuration, the position, the
    iterations completed and the time elapsed. The theorems on the
    completion promise hold for any such rule. *)
Class Advance : Type := {
  advance : playConf → Qc → nat → Qc → progress;
}.

(** A promise is settled once. *)
Definition settle (id : nat) (finished : bool) (ps : gmap nat promise)
    : gmap nat promise :=
  match ps !! id with
  | Some Pending => <[id := Resolved finished]> ps
  | _ => ps
  end.

Section Player.

Context `{Advance}.

(** Modelled from the spec: [play(conf)] takes the player from idle or
    paused to playing and returns a pending completion promise; the spec
    gives no transition for a player that is playing. *)
Definition play (c : playConf) (p : player) : option (nat * player) :=
  match state p with
  | Playing _ => None
  | Idle | Paused =>
      let id := nextPromise p in
      Some (id,
            {| state := Playing {| conf := c; iterationsDone := 0;
                                   lastTick := None; completion := id |};
               position := position p;
               promises := <[id := Pending]> (promises p);
               nextPromise := S id |})
  end.

(** Modelled from the spec: [pause()] freezes the position and takes a
    playing player to paused, resolving the completion promise of the
    interrupted playback to [false]; on a paused or idle player it does
    nothing. *)
Definition pause (p : player) : player :=
  match state p with
  | Playing pb =>
      {| state := Paused;
         position := position p;
         promises := settle (completion pb) false (promises p);
         nextPromise := nextPromise p |}
  | Idle | Paused => p
  end.

(** The time a tick adds to a playback; its first tick sets the clock. *)
Definition elapsed (pb : playback) (time : Qc) : Qc :=
  match lastTick pb with
  | Some t0 => (time - t0)%Qc
  | None => 0%Qc
  end.

(** Modelled from the spec: a tick moves the playhead of a playing
    player; when the iterations are over the player stops and the
    completion promise resolves to [true]. *)
Definition tick (time : Qc) (p : player) : player :=
  match state p with
  | Playing pb =>
      match advance (conf pb) (position p) (iterationsDone pb) (elapsed pb time) with
      | GoesOn pos its =>
          {| state := Playing {| conf := conf pb; iterationsDone := its;
                                 lastTick := Some time;
                                 completion := completion pb |};
             position := pos;
             promises := promises p;
             nextPromise := nextPromise p |}
      | Over pos =>
          {| state := Idle;
             position := pos;
             promises := settle (completion pb) true (promises p);
             nextPromise := nextPromise p |}
      end
  | Idle | Paused => p
  end.

Inductive event : Type :=
| Play (c : playConf)
| Pause
| Tick (time : Qc).

(** One event; [None] when the spec gives the player no transition. *)
Definition step (p : player) (ev : event) : option player :=
  match ev with
  | Play c => snd <$> play c p
  | Pause => Some (pause p)
  | Tick time => Some (tick time p)
  end.

Fixpoint run (evs : list event) (p : player) : option player :=
  match evs with
  | [] => Some p
  | ev :: evs' =>
      match step p ev with
      | Some p' => run evs' p'
      | None => None
      end
  end.

(** The playback whose completion promise is [id] is the one playing. *)
Definition playingFor (id : nat) (p : player) : Prop :=
  match state p with
  | Playing pb => completion pb = id
  | Idle | Paused => False
  end.

(** The tick at [time] ends the playback under way. *)
Definition endsAt (time : Qc) (p : player) : Prop :=
  match state p with
  | Playing pb =>
      ∃ pos, advance (conf pb) (position p) (iterationsDone pb) (elapsed pb time) = Over pos
  | Idle | Paused => False
  end.

End Player.

Definition idlePlayer : player :=
  {| state := Idle; position := 0%Qc; promises := ∅; nextPromise := 0 |}.

(** A rule for closed examples: forward playback that restarts at the
    start of the range until the iterations run out. *)
Definition forwardAdvance : Advance := {|
  advance := λ c pos its dt,
    let pos' := (pos + rate c * dt)%Qc in
    if bool_decide (pos' < (range c).2)%Qc then GoesOn pos' its
    else
      match iterationCount c with
      | Some n =>
          if bool_decide (S its < Pos.to_nat n)%nat
          then GoesOn ((range c).1 + (pos' - (range c).2))%Qc (S its)
          else Over (range c).2
      | None => GoesOn ((range c).1 + (pos' - (range c).2))%Qc (S its)
      end
|}.

End Sequences.

(** ** [val] *)

Module Reading.

Import Dataverse Change.

(** [val(pointer)]: the value a pointer points to; anything that is not a
    pointer, a prism included, is refused. *)
Definition val (pointer : argument) (g : Dataverse.graph) : JS.error + JS.value :=
  match pointer with
  | ArgPointer p => inr (getValue (pointerToPrism p) g)
  | ArgPrism _ | ArgValue _ =>
      inl (JS.Error (JS.MsgText "Called val(p) where p is not a pointer."))
  end.

End Reading.

(** ** Facts about [getProject] *)

Module CoreFacts.

Import Eff Core.

(** *** Trimming *)

Lemma trimStart_length (s : string) :
  (String.length (JS.trimStart s) ≤ String.length s)%nat.
Proof.
  induction s as [|c rest IH]; simpl; [lia|].
  destruct (JS.isWhiteSpace c); simpl; lia.
Qed.

Lemma trimStart_fixed (s : string) :
  String.length (JS.trimStart s) = String.length s → JS.trimStart s = s.
Proof.
  destruct s as [|c rest]; simpl; [done|].
  destruct (JS.isWhiteSpace c); [|done].
  pose proof (trimStart_length rest). lia.
Qed.

Lemma trimEnd_length (s : string) :
  (String.length (JS.trimEnd s) ≤ String.length s)%nat.
Proof.
  induction s as [|c rest IH]; simpl; [lia|].
  destruct (JS.trimEnd rest) as [|d rest'].
  - destruct (JS.isWhiteSpace c); simpl; lia.
  - simpl in *. lia.
Qed.

Lemma trimEnd_fixed (s : string) :
  String.length (JS.trimEnd s) = String.length s → JS.trimEnd s = s.
Proof.
  induction s as [|c rest IH]; simpl; [done|].
  destruct (JS.trimEnd rest) as [|d rest'] eqn:E.
  - destruct (JS.isWhiteSpace c); simpl; [lia|].
    destruct rest; simpl; [done|lia].
  - simpl. intros Hlen. f_equal. apply IH. simpl. lia.
Qed.

Lemma trim_length (s : string) :
  (String.length (JS.trim s) ≤ String.length s)%nat.
Proof.
  unfold JS.trim.
  pose proof (trimEnd_length (JS.trimStart s)).
  pose proof (trimStart_length s). lia.
Qed.

(** [idTrimmed.length !== value.length] holds exactly when trimming
    changes the string. *)
Lemma trim_changes_iff_length (s : string) :
  JS.trim s ≠ s ↔ String.length (JS.trim s) ≠ String.length s.
Proof.
  split.
  - intros Hne Hlen. apply Hne. unfold JS.trim in *.
    pose proof (trimEnd_length (JS.trimStart s)).
    pose proof (trimStart_length s).
    assert (JS.trimStart s = s) as Hs by (apply trimStart_fixed; lia).
    rewrite Hs in *. by apply trimEnd_fixed.
  - intros Hlen Heq. by rewrite Heq in Hlen.
Qed.

(** A malformed project identifier: a non-string value, a string with
    surrounding white space, or a string shorter than 3 characters. *)
Definition malformedProjectId (id : JS.value) : Prop :=
  match id with
  | JS.String s => JS.trim s ≠ s ∨ (String.length s < 3)%nat
  | _ => True
  end.

(** Case analysis on a scrutinee that is not a run of a computation. *)
Ltac case_pure :=
  match goal with
  | |- context [match ?x with _ => _ end] =>
      lazymatch type of x with
      | (_ * store)%type => fail
      | _ => destruct x eqn:?
      end
  end.

Section WithImports.

Context `{Imports}.

Lemma validateProjectIdOrThrow_malformed (id : JS.value) :
  malformedProjectId id →
  ∃ m, validateProjectIdOrThrow id = inl (JS.InvalidArgumentError m).
Proof.
  destruct id as [| |b|n|s|elems|props]; simpl; try by eauto.
  intros Hbad.
  destruct (decide (String.length (JS.trim s) = String.length s)) as [Hlen|Hlen].
  - rewrite bool_decide_eq_true_2 by done. simpl.
    destruct Hbad as [Hws|Hshort].
    + by apply trim_changes_iff_length in Hws.
    + rewrite bool_decide_eq_true_2 by lia. eauto.
  - rewrite bool_decide_eq_false_2 by done. simpl. eauto.
Qed.

Lemma validateProjectIdOrThrow_ok (id : JS.value) :
  validateProjectIdOrThrow id = inr tt → ¬ malformedProjectId id.
Proof.
  intros Hok Hbad.
  destruct (validateProjectIdOrThrow_malformed id Hbad) as [m Hm]. congruence.
Qed.

(** X1. [validateProjectIdOrThrow] returns without throwing exactly for
    the identifiers that are not malformed: strings of at least three
    characters that trimming leaves unchanged. Every other value gets an
    [InvalidArgumentError]: the function never throws anything else. *)
Theorem validateProjectIdOrThrow_accepts_iff (id : JS.value) :
  (validateProjectIdOrThrow id = inr tt ↔ ¬ malformedProjectId id)
  ∧ (validateProjectIdOrThrow id = inr tt
     ∨ ∃ m, validateProjectIdOrThrow id = inl (JS.InvalidArgumentError m)).
Proof.
  split.
  - split; [apply validateProjectIdOrThrow_ok|].
    destruct id as [| |b|n|s|elems|props]; simpl; try tauto.
    intros Hgood.
    destruct (decide (JS.trim s = s)) as [Heq|Hne]; [|tauto].
    rewrite Heq, bool_decide_eq_true_2 by done. simpl.
    rewrite bool_decide_eq_false_2; [done|]. intros Hshort. tauto.
  - destruct id as [| |b|n|s|elems|props]; simpl; try (right; eauto; fail).
    destruct (bool_decide (String.length (JS.trim s) = String.length s)); simpl;
      [|right; eauto].
    destruct (bool_decide (String.length (JS.trim s) < 3)%nat); [right|left]; eauto.
Qed.

(** *** Calls that find a project *)

Lemma getProject_existing env id config2 p st :
  projects st !! projectKey id = Some p →
  getProject env id config2 st =
    if notProduction env && negb (deepEqual (configOrDefault config2) p.(config))
    then (inl (JS.Error (JS.MsgConfigChanged id)), st)
    else (inr p.(publicApi), st).
Proof.
  intros Hp. unfold getProject, bind, projectsSingleton_get, gets. rewrite Hp.
  destruct env; simpl; [done|].
  by destruct (deepEqual _ _).
Qed.

(** *** Calls that find no project *)

(** The checks of a call that creates a project, in the order the
    code runs them; [inr] carries the debug entries logged on the way. *)
Definition freshChecks (env : nodeEnv) (id config : JS.value)
    : JS.error * list debugEntry + list debugEntry :=
  match (if notProduction env then
           match validateNameOrThrow id with
           | inl e => inl (e, [])
           | inr _ =>
               match validateProjectIdOrThrow id with
               | inl e => inl (e, [])
               | inr _ => inr [ValidatedProjectName id]
               end
           end
         else inr []) with
  | inl e => inl e
  | inr log1 =>
      match JS.getMember config "state" with
      | inl e => inl (e, log1)
      | inr state =>
          if JS.truthy state then
            match shallowValidateOnDiskState id state with
            | inl e => inl (e, log1)
            | inr _ =>
                inr (log1 ++ [if notProduction env then ShallowValidatedState
                              else DeepValidatedState])
            end
          else inr (log1 ++ [NoConfigState])
      end
  end.

Lemma getProject_fresh_unfold env id config st :
  projects st !! projectKey id = None →
  getProject env id config st =
    match freshChecks env id (configOrDefault config) with
    | inl (e, log) =>
        (inl e, {| projects := projects st;
                   nextObjectId := nextObjectId st;
                   debugLog := debugLog st ++ log |})
    | inr log =>
        let pub := {| objectId := nextObjectId st |} in
        (inr pub,
         {| projects := <[projectKey id :=
                            {| config := configOrDefault config; publicApi := pub |}]>
                          (projects st);
            nextObjectId := S (nextObjectId st);
            debugLog := debugLog st ++ log |})
    end.
Proof.
  intros Hq.
  unfold getProject, freshChecks, bind, projectsSingleton_get, gets, lift, debug,
    modify, ret, TheatreProject_new, deepValidateOnDiskState.
  rewrite Hq. destruct st as [ps n log]. simpl.
  destruct env; simpl.
  - destruct (JS.getMember _ _) as [e|state]; simpl;
      [by rewrite app_nil_r|].
    destruct (JS.truthy state); simpl; [|done].
    destruct (shallowValidateOnDiskState id state) as [e|[]]; simpl;
      [by rewrite app_nil_r|done].
  - destruct (validateNameOrThrow id) as [e|[]]; simpl;
      [by rewrite app_nil_r|].
    destruct (validateProjectIdOrThrow id) as [e|[]]; simpl;
      [by rewrite app_nil_r|].
    destruct (JS.getMember _ _) as [e|state]; simpl; [done|].
    destruct (JS.truthy state); simpl; [|by rewrite <- app_assoc].
    destruct (shallowValidateOnDiskState id state) as [e|[]]; simpl;
      [done|by rewrite <- app_assoc].
Qed.

(** *** The registry only grows *)

Lemma getProject_keeps env id config st k p :
  projects st !! k = Some p →
  projects (getProject env id config st).2 !! k = Some p.
Proof.
  intros Hk.
  destruct (projects st !! projectKey id) as [q|] eqn:Hq.
  { rewrite (getProject_existing _ _ _ q) by done.
    by destruct (_ && _). }
  assert (projectKey id ≠ k) as Hne by congruence.
  rewrite (getProject_fresh_unfold env id config st Hq).
  repeat case_pure; simpl; try done; by rewrite lookup_insert_ne.
Qed.

Lemma getProjects_keeps env calls st k p :
  projects st !! k = Some p →
  projects (getProjects env calls st) !! k = Some p.
Proof.
  revert st. induction calls as [|call calls IH]; intros st Hk; [done|].
  simpl. apply IH. by apply getProject_keeps.
Qed.

Lemma getProject_registers env id config st api st' :
  getProject env id config st = (inr api, st') →
  ∃ p, projects st' !! projectKey id = Some p ∧ p.(publicApi) = api ∧
       (projects st !! projectKey id = None → p.(Core.config) = configOrDefault config).
Proof.
  destruct (projects st !! projectKey id) as [q|] eqn:Hq.
  { rewrite (getProject_existing _ _ _ q) by done.
    destruct (_ && _); intros [= <- <-]. exists q. by rewrite Hq. }
  rewrite (getProject_fresh_unfold env id config st Hq).
  repeat case_pure; simpl; try done;
    intros [= <- <-]; simpl; eexists; by rewrite lookup_insert_eq.
Qed.

(** *** Unreadable states *)

(** [s.definitionVersion !== globals.currentProjectStateDefinitionVersion]
    for a state [s] that is neither [null] nor [undefined]. *)
Definition versionMismatch (s : JS.value) : bool :=
  match JS.getMember s "definitionVersion" with
  | inl _ => false
  | inr v => negb (JS.strictEqString v currentProjectStateDefinitionVersion)
  end.

Lemma shallowValidateOnDiskState_rejects id s :
  JS.truthy s = true →
  JS.isArray s = true ∨ versionMismatch s = true →
  shallowValidateOnDiskState id s =
    inl (JS.InvalidArgumentError (JS.MsgStateUnreadable id)).
Proof.
  intros Ht Hbad. unfold shallowValidateOnDiskState, versionMismatch in *.
  destruct (JS.isArray s); [done|].
  destruct Hbad as [?|Hv]; [done|].
  destruct s; try done; simpl in *; by rewrite Hv.
Qed.

Lemma shallowValidateOnDiskState_accepts id s :
  shallowValidateOnDiskState id s = inr tt →
  JS.isArray s = false ∧ JS.looseEqNull s = false ∧ versionMismatch s = false.
Proof.
  unfold shallowValidateOnDiskState, versionMismatch.
  destruct (JS.isArray s); [done|].
  destruct (JS.looseEqNull s); [done|].
  destruct (JS.getMember s "definitionVersion"); [done|].
  by destruct (JS.strictEqString _ _).
Qed.

(** X2. [shallowValidateOnDiskState] returns without throwing exactly
    for a state that is not an array, is neither [null] nor [undefined],
    and whose [definitionVersion] is the expected string; every other
    state gets the [InvalidArgumentError] for an unreadable state. *)
Theorem shallowValidateOnDiskState_accepts_iff id s :
  (shallowValidateOnDiskState id s = inr tt
   ↔ JS.isArray s = false ∧ JS.looseEqNull s = false ∧ versionMismatch s = false)
  ∧ (shallowValidateOnDiskState id s = inr tt
     ∨ shallowValidateOnDiskState id s =
         inl (JS.InvalidArgumentError (JS.MsgStateUnreadable id))).
Proof.
  unfold shallowValidateOnDiskState, versionMismatch.
  destruct s as [| |b|n|t|elems|props]; simpl;
    try (destruct (JS.strictEqString _ _); simpl);
    intuition congruence.
Qed.

(** C1, as amended. When no project is registered under [id], the
    identifier passes the development-only checks, and [config.state] is
    truthy but is an array or carries a [definitionVersion] other than the
    expected one, [getProject] throws an [InvalidArgumentError] for the
    unreadable state and neither registers a project nor allocates a public
    API object. *)
Theorem getProject_rejects_unreadable_state env id config state st :
  projects st !! projectKey id = None →
  (notProduction env = true →
   validateNameOrThrow id = inr tt ∧ validateProjectIdOrThrow id = inr tt) →
  JS.getMember (configOrDefault config) "state" = inr state →
  JS.truthy state = true →
  JS.isArray state = true ∨ versionMismatch state = true →
  ∃ st',
    getProject env id config st =
      (inl (JS.InvalidArgumentError (JS.MsgStateUnreadable id)), st')
    ∧ projects st' = projects st
    ∧ nextObjectId st' = nextObjectId st.
Proof.
  intros Hfresh Hid Hstate Htruthy Hbad.
  rewrite (getProject_fresh_unfold env id config st Hfresh).
  unfold freshChecks. rewrite Hstate, Htruthy.
  rewrite (shallowValidateOnDiskState_rejects id state Htruthy Hbad).
  destruct env; simpl.
  - eauto.
  - destruct (Hid eq_refl) as [-> ->]. eauto.
Qed.

(** X5. A [config.state] that is [null], like any falsy state, is taken
    as absent: when no project is registered under the identifier and the
    identifier passes the non-production checks, the project is created
    and registered with the config as given. *)
Theorem getProject_falsy_state_creates env id config state st :
  projects st !! projectKey id = None →
  (notProduction env = true →
   validateNameOrThrow id = inr tt ∧ validateProjectIdOrThrow id = inr tt) →
  JS.getMember (configOrDefault config) "state" = inr state →
  JS.truthy state = false →
  ∃ st',
    getProject env id config st = (inr {| objectId := nextObjectId st |}, st')
    ∧ projects st' !! projectKey id =
        Some {| Core.config := configOrDefault config;
                publicApi := {| objectId := nextObjectId st |} |}.
Proof.
  intros Hfresh Hid Hstate Hfalsy.
  rewrite (getProject_fresh_unfold env id config st Hfresh).
  unfold freshChecks. rewrite Hstate, Hfalsy.
  destruct env; simpl.
  - eexists; split; [done|]. simpl. by rewrite lookup_insert_eq.
  - destruct (Hid eq_refl) as [-> ->].
    eexists; split; [done|]. simpl. by rewrite lookup_insert_eq.
Qed.

(** *** Malformed identifiers *)

(** C8, as amended. In a non-production build, when no project is
    registered under the identifier, a malformed identifier makes
    [getProject] throw at the call, leaving the store as it was; the error
    is the one [validateName] raised or an [InvalidArgumentError] of
    [validateProjectIdOrThrow]. *)
Theorem getProject_rejects_malformed_id id config st :
  projects st !! projectKey id = None →
  malformedProjectId id →
  ∃ e,
    getProject Development id config st = (inl e, st)
    ∧ (validateNameOrThrow id = inl e ∨ JS.isInvalidArgument e = true).
Proof.
  intros Hfresh Hbad.
  rewrite (getProject_fresh_unfold Development id config st Hfresh).
  unfold freshChecks. simpl.
  destruct st as [ps n log]. simpl.
  destruct (validateNameOrThrow id) as [e|[]] eqn:Hname.
  - exists e. rewrite app_nil_r. eauto.
  - destruct (validateProjectIdOrThrow_malformed id Hbad) as [m ->].
    eexists. rewrite app_nil_r. split; [done|]. by right.
Qed.

(** X6. In a production build the identifier is not validated: with no
    project registered under it and no [config.state], [getProject]
    returns a new public API object whatever the identifier is. *)
Theorem getProject_production_skips_id_checks id config st :
  projects st !! projectKey id = None →
  JS.getMember (configOrDefault config) "state" = inr JS.Undefined →
  (getProject Production id config st).1 = inr {| objectId := nextObjectId st |}.
Proof.
  intros Hfresh Hstate.
  rewrite (getProject_fresh_unfold Production id config st Hfresh).
  unfold freshChecks. by rewrite Hstate.
Qed.

(** *** Asking again for a project *)

(** X7. [getProject] never replaces a registered project: whatever calls
    follow, a project found under a key is still the one found there. *)
Theorem getProjects_never_replace env calls st k p :
  projects st !! k = Some p →
  projects (getProjects env calls st) !! k = Some p.
Proof. apply getProjects_keeps. Qed.

(** C9. Once [getProject id config] has returned a public API object, a
    project with that public API is registered under [id]; from then on,
    after any further [getProject] calls, a call with a config deep-equal
    to the registered one returns that same object and changes nothing:
    no project is built, nothing is validated or logged. *)
Theorem getProject_again_same_config env id config st api st' :
  getProject env id config st = (inr api, st') →
  ∃ p,
    projects st' !! projectKey id = Some p
    ∧ p.(publicApi) = api
    ∧ (projects st !! projectKey id = None → p.(Core.config) = configOrDefault config)
    ∧ ∀ calls config2,
        deepEqual (configOrDefault config2) p.(Core.config) = true →
        let st'' := getProjects env calls st' in
        getProject env id config2 st'' = (inr api, st'').
Proof.
  intros Hcall.
  destruct (getProject_registers env id config st api st' Hcall) as (p & Hp & Hapi & Hcfg).
  exists p. repeat split; try done.
  intros calls config2 Heq st''.
  rewrite (getProject_existing env id config2 p st'').
  - rewrite Heq, andb_false_r. by rewrite Hapi.
  - by apply getProjects_keeps.
Qed.

(** C10. With a project registered under [id], a call whose config is not
    deep-equal to the registered one throws an [Error] in a non-production
    build and leaves the store, hence the project and its config, as they
    were; in a production build the same call returns the registered
    project's public API and ignores the new config. *)
Theorem getProject_again_other_config id config2 p st :
  projects st !! projectKey id = Some p →
  deepEqual (configOrDefault config2) p.(Core.config) = false →
  getProject Development id config2 st = (inl (JS.Error (JS.MsgConfigChanged id)), st)
  ∧ getProject Production id config2 st = (inr p.(publicApi), st).
Proof.
  intros Hp Hneq.
  rewrite !(getProject_existing _ id config2 p st Hp), Hneq. done.
Qed.

End WithImports.

(** *** Closed instances *)

(** The store after a first [getProject("Demo project")] in a development
    build. *)
Definition demoStore : store :=
  (getProject (H := exampleImports) Development
     (JS.String "Demo project") JS.Undefined emptyStore).2.

Lemma getProject_rejects_unreadable_state_witness :
  ∃ st',
    getProject (H := exampleImports) Development (JS.String "Demo project")
      (JS.Object [("state", JS.Object [("definitionVersion", JS.String "0.3.0")])])
      emptyStore =
      (inl (JS.InvalidArgumentError (JS.MsgStateUnreadable (JS.String "Demo project"))), st')
    ∧ projects st' = projects emptyStore
    ∧ nextObjectId st' = nextObjectId emptyStore.
Proof.
  apply (@getProject_rejects_unreadable_state exampleImports Development
           (JS.String "Demo project")
           (JS.Object [("state", JS.Object [("definitionVersion", JS.String "0.3.0")])])
           (JS.Object [("definitionVersion", JS.String "0.3.0")])
           emptyStore).
  - reflexivity.
  - intros _. split; reflexivity.
  - reflexivity.
  - reflexivity.
  - right. reflexivity.
Defined.

(** C1 fails as stated: with [config.state] equal to [null] the call
    succeeds, and the project is registered with that config. *)
Lemma getProject_null_state_creates_project :
  JS.getMember (JS.Object [("state", JS.Null)]) "state" = inr JS.Null
  ∧ ∃ st',
      getProject (H := exampleImports) Development (JS.String "Demo project")
        (JS.Object [("state", JS.Null)]) emptyStore
      = (inr {| objectId := 0 |}, st')
      ∧ projects st' !! "Demo project" =
          Some {| Core.config := JS.Object [("state", JS.Null)];
                  publicApi := {| objectId := 0 |} |}.
Proof.
  split; [reflexivity|].
  eexists. split; [reflexivity|]. reflexivity.
Qed.

Lemma getProject_rejects_malformed_id_witness :
  ∃ e,
    getProject (H := exampleImports) Development (JS.String " ab") JS.Undefined emptyStore
      = (inl e, emptyStore)
    ∧ (validateNameOrThrow (H := exampleImports) (JS.String " ab") = inl e
       ∨ JS.isInvalidArgument e = true).
Proof.
  apply (@getProject_rejects_malformed_id exampleImports (JS.String " ab")
           JS.Undefined emptyStore).
  - reflexivity.
  - left. simpl. discriminate.
Defined.

(** C8 fails as stated: in a production build the two-character
    identifier ["ab"] is accepted and a project is created. *)
Lemma getProject_production_accepts_short_id :
  malformedProjectId (JS.String "ab")
  ∧ (getProject (H := exampleImports) Production (JS.String "ab") JS.Undefined
       emptyStore).1 = inr {| objectId := 0 |}.
Proof.
  split; [right; simpl; lia | reflexivity].
Qed.

Lemma getProject_falsy_state_creates_witness :
  ∃ st',
    getProject (H := exampleImports) Production (JS.Number (JS.Finite 0%Qc))
      (JS.Object [("state", JS.String "")]) emptyStore
    = (inr {| objectId := nextObjectId emptyStore |}, st')
    ∧ projects st' !! projectKey (H := exampleImports) (JS.Number (JS.Finite 0%Qc)) =
        Some {| Core.config := JS.Object [("state", JS.String "")];
                publicApi := {| objectId := nextObjectId emptyStore |} |}.
Proof.
  apply (@getProject_falsy_state_creates exampleImports Production
           (JS.Number (JS.Finite 0%Qc)) (JS.Object [("state", JS.String "")])
           (JS.String "") emptyStore).
  - reflexivity.
  - discriminate.
  - reflexivity.
  - reflexivity.
Defined.

Lemma getProject_production_skips_id_checks_witness :
  (getProject (H := exampleImports) Production (JS.String " ") JS.Undefined emptyStore).1
  = inr {| objectId := nextObjectId emptyStore |}.
Proof.
  apply (@getProject_production_skips_id_checks exampleImports (JS.String " ")
           JS.Undefined emptyStore).
  - reflexivity.
  - reflexivity.
Defined.

Lemma getProjects_never_replace_witness :
  projects
    (getProjects (H := exampleImports) Development
       [(JS.String "Demo project", JS.Object [("assets", JS.Object [])]);
        (JS.String "Another project", JS.Undefined)]
       demoStore) !! "Demo project"
  = Some {| Core.config := JS.Object []; publicApi := {| objectId := 0 |} |}.
Proof.
  apply (@getProjects_never_replace exampleImports Development
           [(JS.String "Demo project", JS.Object [("assets", JS.Object [])]);
            (JS.String "Another project", JS.Undefined)]
           demoStore "Demo project"
           {| Core.config := JS.Object []; publicApi := {| objectId := 0 |} |}).
  reflexivity.
Defined.

Lemma getProject_again_same_config_witness :
  ∃ p,
    projects demoStore !! "Demo project" = Some p
    ∧ p.(publicApi) = {| objectId := 0 |}
    ∧ (projects emptyStore !! "Demo project" = None →
       p.(Core.config) = JS.Object [])
    ∧ ∀ calls config2,
        JS.value_eqb (configOrDefault config2) p.(Core.config) = true →
        getProject (H := exampleImports) Development (JS.String "Demo project") config2
          (getProjects (H := exampleImports) Development calls demoStore)
        = (inr {| objectId := 0 |},
           getProjects (H := exampleImports) Development calls demoStore).
Proof.
  apply (@getProject_again_same_config exampleImports Development
           (JS.String "Demo project") JS.Undefined emptyStore
           {| objectId := 0 |} demoStore).
  reflexivity.
Defined.

Lemma getProject_again_other_config_witness :
  getProject (H := exampleImports) Development (JS.String "Demo project")
    (JS.Object [("assets", JS.Object [])]) demoStore
  = (inl (JS.Error (JS.MsgConfigChanged (JS.String "Demo project"))), demoStore)
  ∧ getProject (H := exampleImports) Production (JS.String "Demo project")
      (JS.Object [("assets", JS.Object [])]) demoStore
    = (inr {| objectId := 0 |}, demoStore).
Proof.
  apply (@getProject_again_other_config exampleImports (JS.String "Demo project")
           (JS.Object [("assets", JS.Object [])])
           {| Core.config := JS.Object []; publicApi := {| objectId := 0 |} |}
           demoStore).
  - reflexivity.
  - reflexivity.
Defined.

End CoreFacts.


(** ** Facts about [onChange] *)

Module ChangeFacts.

Import Eff Dataverse Change.

(** *** The side table *)

(** X4. After [setPrivateAPI(pub, priv)], [privateAPI] finds [priv] for
    [pub] and what it found before for every other public object. *)
Theorem privateAPI_after_setPrivateAPI {P} (pub pub' : nat) (priv : P)
    (m : PrivateAPIs.table P) :
  PrivateAPIs.privateAPI pub' (PrivateAPIs.setPrivateAPI pub priv m)
  = if decide (pub = pub') then Some priv else PrivateAPIs.privateAPI pub' m.
Proof. apply lookup_insert. Qed.

(** *** Choosing the ticker *)

Lemma tickerOf_graph rafDriver w :
  graph (tickerOf rafDriver w).2 = graph w.
Proof.
  destruct rafDriver as [driver|]; simpl.
  - unfold bind, gets, ret, throw.
    by destruct (PrivateAPIs.privateAPI _ _).
  - unfold getCoreTicker. by destruct (coreTicker w).
Qed.

Lemma tickerOf_registered driver priv w :
  PrivateAPIs.privateAPI (driverId driver) (privateAPIs w) = Some priv →
  tickerOf (Some driver) w = (inr (ticker priv), w).
Proof. intros Hp. simpl. unfold bind, gets, ret. by rewrite Hp. Qed.

Lemma tickerOf_unregistered driver w :
  PrivateAPIs.privateAPI (driverId driver) (privateAPIs w) = None →
  tickerOf (Some driver) w = (inl (JS.TypeError (JS.MsgCannotReadProperty "ticker")), w).
Proof. intros Hp. simpl. unfold bind, gets, throw. by rewrite Hp. Qed.

(** *** Counting calls *)

Lemma callsOf_app id (l1 l2 : list invocation) :
  callsOf id (l1 ++ l2) = callsOf id l1 ++ callsOf id l2.
Proof. unfold callsOf. apply filter_app. Qed.

Lemma delivered_subscription t g entry inv :
  delivered t g entry = Some inv → invSubscription inv = entry.1.
Proof.
  unfold delivered. destruct (refresh t g entry.2); simpl; [|done].
  by intros [= <-].
Qed.

Lemma refresh_other_ticker t g s :
  subTicker s ≠ t → refresh t g s = None.
Proof.
  intros Hne. unfold refresh. by rewrite bool_decide_eq_false_2.
Qed.

(** One round delivers at most one call to a subscription, and none to a
    subscription that is not listed. *)
Lemma delivered_at_most_once t g id (l : list (nat * subscription)) :
  NoDup l.*1 →
  (length (callsOf id (omap (delivered t g) l)) ≤ 1)%nat
  ∧ (id ∉ l.*1 → callsOf id (omap (delivered t g) l) = []).
Proof.
  induction l as [|[i s] l IH]; csimpl; intros Hnd.
  { split; [lia|done]. }
  apply NoDup_cons in Hnd as [Hi Hnd]. destruct (IH Hnd) as [IH1 IH2].
  destruct (delivered t g (i, s)) as [inv|] eqn:Hd; csimpl.
  - apply delivered_subscription in Hd. simpl in Hd.
    unfold callsOf in *.
    destruct (decide (invSubscription inv = id)) as [Heq|Hne].
    + rewrite filter_cons_True by done.
      assert (i = id) as -> by congruence.
      rewrite (IH2 Hi). csimpl.
      split; [lia|]. intros Hnot. exfalso. apply Hnot, elem_of_cons. by left.
    + rewrite filter_cons_False by done.
      split; [done|]. intros Hnot. apply IH2. intros Hin.
      apply Hnot, elem_of_cons. by right.
  - split; [done|]. intros Hnot. apply IH2. intros Hin.
    apply Hnot, elem_of_cons. by right.
Qed.

Lemma delivered_none_for_other_ticker t g id (l : list (nat * subscription)) :
  (∀ s, (id, s) ∈ l → subTicker s ≠ t) →
  callsOf id (omap (delivered t g) l) = [].
Proof.
  induction l as [|[i s] l IH]; csimpl; intros Hall; [done|].
  destruct (delivered t g (i, s)) as [inv|] eqn:Hd; csimpl.
  - unfold callsOf in *.
    destruct (decide (invSubscription inv = id)) as [Heq|Hne].
    + exfalso. pose proof (delivered_subscription _ _ _ _ Hd) as Hi. simpl in Hi.
      assert (i = id) as -> by congruence.
      unfold delivered in Hd. simpl in Hd.
      rewrite refresh_other_ticker in Hd; [done|]. apply Hall, elem_of_cons. by left.
    + rewrite filter_cons_False by done.
      apply IH. intros s' Hs'. apply Hall, elem_of_cons. by right.
  - apply IH. intros s' Hs'. apply Hall, elem_of_cons. by right.
Qed.

(** *** What holds of a subscription from its registration on *)

(** The handle was handed out, and while the subscription is active it
    stays with its ticker. *)
Definition registered (id t : nat) (g : Dataverse.graph) : Prop :=
  (id < nextSubscription g)%nat
  ∧ ∀ s, subscriptions g !! id = Some s → subTicker s = t.

Lemma remember_ticker t g s : subTicker (remember t g s) = subTicker s.
Proof. unfold remember. by destruct (refresh t g s). Qed.

Lemma step_registered id t g ev :
  registered id t g → registered id t (step g ev).
Proof.
  intros [Hlt Hsub]. destruct ev as [p v|t'|pr t' cb imm|id']; simpl.
  - done.
  - split; [done|]. simpl. intros s. rewrite lookup_fmap.
    destruct (subscriptions g !! id) as [s0|] eqn:Hs0; simpl; [|done].
    intros [= <-]. rewrite remember_ticker. by apply Hsub.
  - split; simpl; [lia|]. intros s.
    rewrite lookup_insert_ne by lia. apply Hsub.
  - split; [done|]. simpl. intros s.
    destruct (decide (id' = id)) as [->|Hne].
    + by rewrite lookup_delete_eq.
    + rewrite lookup_delete_ne by done. apply Hsub.
Qed.

Lemma run_registered id t evs g :
  registered id t g → registered id t (run evs g).
Proof.
  revert g. induction evs as [|ev evs IH]; intros g Hg; [done|].
  simpl. apply IH. by apply step_registered.
Qed.

(** The number of calls an event may add for a subscription of ticker
    [t]: one for a tick of [t], none otherwise. *)
Definition allowance (t : nat) (ev : event) : nat :=
  match ev with
  | Tick t' => if bool_decide (t' = t) then 1 else 0
  | _ => 0
  end.

Lemma step_calls id t g ev :
  registered id t g →
  ∃ new,
    invocations (step g ev) = invocations g ++ new
    ∧ (length (callsOf id new) ≤ allowance t ev)%nat.
Proof.
  intros [Hlt Hsub]. destruct ev as [p v|t'|pr t' cb imm|id']; simpl.
  - exists []. by rewrite app_nil_r.
  - eexists. split; [done|].
    case_bool_decide as Ht.
    + apply delivered_at_most_once, NoDup_fst_map_to_list.
    + rewrite delivered_none_for_other_ticker; [done|].
      intros s Hs%elem_of_map_to_list. rewrite (Hsub s Hs). congruence.
  - eexists. split; [done|]. destruct imm; [|done].
    unfold callsOf. rewrite filter_cons. simpl.
    rewrite decide_False by lia. done.
  - exists []. by rewrite app_nil_r.
Qed.

Lemma Prism_onChange_registered pr t cb imm g :
  registered (Prism_onChange pr t cb imm g).1 t (Prism_onChange pr t cb imm g).2.
Proof.
  split; simpl; [lia|]. intros s. rewrite lookup_insert_eq. by intros [= <-].
Qed.

Lemma onChange_unfold pointer callback rafDriver w :
  onChange pointer callback rafDriver w =
    match tickerOf rafDriver w with
    | (inl e, w1) => (inl e, w1)
    | (inr t, w1) =>
        match observed pointer with
        | Some pr =>
            (inr (nextSubscription (graph w1)),
             withGraph w1 (Prism_onChange pr t callback true (graph w1)).2)
        | None => (inl (JS.Error JS.MsgNotPointerOrPrism), w1)
        end
    end.
Proof.
  unfold onChange, bind. destruct (tickerOf rafDriver w) as [[e|t] w1]; [done|].
  by destruct pointer.
Qed.

(** *** Arguments that are not observable *)

(** C3. Handed an argument that is neither a pointer nor a prism,
    [onChange] throws at the call: the graph is left as it was, so no
    subscription is registered and no callback is called. The error is the
    [Error] of the last branch, unless reading [.ticker] of an unregistered
    raf driver has thrown a [TypeError] before it. *)
Theorem onChange_rejects_non_observable pointer callback rafDriver w :
  isPointer pointer = false →
  isPrism pointer = false →
  ∃ e w',
    onChange pointer callback rafDriver w = (inl e, w')
    ∧ graph w' = graph w
    ∧ (e = JS.Error JS.MsgNotPointerOrPrism
       ∨ ∃ driver,
           rafDriver = Some driver
           ∧ PrivateAPIs.privateAPI (driverId driver) (privateAPIs w) = None
           ∧ e = JS.TypeError (JS.MsgCannotReadProperty "ticker")).
Proof.
  intros Hptr Hprism. rewrite onChange_unfold.
  pose proof (tickerOf_graph rafDriver w) as Hg.
  assert (observed pointer = None) as -> by (by destruct pointer).
  destruct (tickerOf rafDriver w) as [[e|t] w1] eqn:Ht; simpl in Hg.
  - exists e, w1. repeat split; [done|]. right.
    destruct rafDriver as [driver|].
    + exists driver. split; [done|].
      destruct (PrivateAPIs.privateAPI (driverId driver) (privateAPIs w)) as [priv|] eqn:Hp.
      * rewrite (tickerOf_registered _ priv) in Ht by done. done.
      * rewrite tickerOf_unregistered in Ht by done. by injection Ht as <- <-.
    + simpl in Ht. unfold getCoreTicker in Ht. by destruct (coreTicker w).
  - exists (JS.Error JS.MsgNotPointerOrPrism), w1. eauto.
Qed.

(** *** Registration and the calls that follow *)

(** C4. [onChange] on a pointer or a prism registers with
    [immediate = true]: during the call the callback is called exactly
    once, with the value the observable has at that moment. Whatever
    happens to the graph afterwards, an event adds at most one call for
    this subscription, and adds one only if it is a tick of the
    subscription's ticker. *)
Theorem onChange_fires_once_then_per_tick pointer pr callback rafDriver w id w' :
  observed pointer = Some pr →
  onChange pointer callback rafDriver w = (inr id, w') →
  ∃ t,
    (tickerOf rafDriver w).1 = inr t
    ∧ invocations (graph w') =
        invocations (graph w) ++
        [{| invSubscription := id; invCallback := callback;
            invValue := getValue pr (graph w) |}]
    ∧ subscriptions (graph w') !! id =
        Some {| subPrism := pr; subTicker := t; subCallback := callback;
                subLast := Some (getValue pr (graph w)) |}
    ∧ ∀ evs ev,
        ∃ new,
          invocations (step (run evs (graph w')) ev) =
            invocations (run evs (graph w')) ++ new
          ∧ (length (callsOf id new) ≤ allowance t ev)%nat.
Proof.
  intros Hobs. rewrite onChange_unfold, Hobs.
  pose proof (tickerOf_graph rafDriver w) as Hg.
  destruct (tickerOf rafDriver w) as [[e|t] w1] eqn:Ht; [done|].
  simpl in Hg. intros [= <- <-]. exists t. simpl. rewrite Hg.
  split; [done|]. split; [done|]. split; [apply lookup_insert_eq|].
  intros evs ev. apply step_calls, run_registered.
  apply (Prism_onChange_registered pr t callback true (graph w)).
Qed.

(** *** Closed instances *)

(** A world with one raf driver, whose ticker is 7, and a root holding
    [x = 1]. *)
Definition demoWorld : world :=
  {| privateAPIs := PrivateAPIs.setPrivateAPI 3 {| ticker := 7 |} ∅;
     coreTicker := None;
     nextTicker := 0;
     graph := write ["x"] (JS.Number (JS.Finite 1)) emptyGraph |}.

Lemma onChange_rejects_non_observable_witness :
  ∃ e w',
    onChange (ArgValue (JS.String "x")) 0 None demoWorld = (inl e, w')
    ∧ graph w' = graph demoWorld
    ∧ (e = JS.Error JS.MsgNotPointerOrPrism
       ∨ ∃ driver,
           None = Some driver
           ∧ PrivateAPIs.privateAPI (driverId driver) (privateAPIs demoWorld) = None
           ∧ e = JS.TypeError (JS.MsgCannotReadProperty "ticker")).
Proof.
  apply (onChange_rejects_non_observable (ArgValue (JS.String "x")) 0 None demoWorld).
  - reflexivity.
  - reflexivity.
Defined.

Lemma onChange_fires_once_then_per_tick_witness :
  ∃ t,
    (tickerOf (Some {| driverId := 3 |}) demoWorld).1 = inr t
    ∧ invocations (graph (onChange (ArgPointer {| pointerPath := ["x"] |}) 5
                            (Some {| driverId := 3 |}) demoWorld).2) =
        invocations (graph demoWorld) ++
        [{| invSubscription := 0; invCallback := 5;
            invValue := getValue {| prismPath := ["x"] |} (graph demoWorld) |}]
    ∧ subscriptions (graph (onChange (ArgPointer {| pointerPath := ["x"] |}) 5
                              (Some {| driverId := 3 |}) demoWorld).2) !! 0%nat =
        Some {| subPrism := {| prismPath := ["x"] |}; subTicker := t; subCallback := 5;
                subLast := Some (getValue {| prismPath := ["x"] |} (graph demoWorld)) |}
    ∧ ∀ evs ev,
        ∃ new,
          invocations
            (step (run evs (graph (onChange (ArgPointer {| pointerPath := ["x"] |}) 5
                                     (Some {| driverId := 3 |}) demoWorld).2)) ev) =
            invocations
              (run evs (graph (onChange (ArgPointer {| pointerPath := ["x"] |}) 5
                                 (Some {| driverId := 3 |}) demoWorld).2)) ++ new
          ∧ (length (callsOf 0 new) ≤ allowance t ev)%nat.
Proof.
  apply (onChange_fires_once_then_per_tick
           (ArgPointer {| pointerPath := ["x"] |}) {| prismPath := ["x"] |}
           5 (Some {| driverId := 3 |}) demoWorld 0).
  - reflexivity.
  - reflexivity.
Defined.

(** A write followed by a tick of the subscription's ticker delivers the
    new value once; a second tick delivers nothing. *)
Example write_then_ticks :
  let g := (onChange (ArgPointer {| pointerPath := ["x"] |}) 5
              (Some {| driverId := 3 |}) demoWorld).2.(graph) in
  invValue <$> invocations
    (run [Write ["x"] (JS.Number (JS.Finite 0)); Write ["x"] (JS.Boolean true);
          Tick 7; Tick 7] g)
  = [JS.Number (JS.Finite 1); JS.Boolean true].
Proof. vm_compute. reflexivity. Qed.

End ChangeFacts.


(** ** Facts about prop types *)

Module PropTypesFacts.

Import PropTypes.

(** *** Induction over nested configs *)

Lemma PropTypeConfig_ind (P : PropTypeConfig → Prop) :
  (∀ c, P (ConfNumber c)) →
  (∀ c, P (ConfBoolean c)) →
  (∀ c, P (ConfString c)) →
  (∀ c, P (ConfStringLiteral c)) →
  (∀ c, P (ConfRgba c)) →
  (∀ c, P (ConfImage c)) →
  (∀ c, P (ConfFile c)) →
  (∀ lbl props, Forall (λ kc, P kc.2) props → P (ConfCompound lbl props)) →
  (∀ lbl cases d, Forall (λ kc, P kc.2) cases → P (ConfEnum lbl cases d)) →
  ∀ c, P c.
Proof.
  intros Hn Hb Hs Hl Hr Hi Hf Hc He.
  fix IH 1. intros [c|c|c|c|c|c|c|lbl props|lbl cases d].
  - apply Hn.
  - apply Hb.
  - apply Hs.
  - apply Hl.
  - apply Hr.
  - apply Hi.
  - apply Hf.
  - apply Hc. induction props as [|[k c] ps IHps]; constructor; [apply IH|apply IHps].
  - apply He. induction cases as [|[k c] ps IHps]; constructor; [apply IH|apply IHps].
Qed.

Lemma wellFormed_compound lbl props :
  wellFormed (ConfCompound lbl props) ↔
  NoDup (keys props) ∧ Forall (λ kc, wellFormed kc.2) props.
Proof.
  simpl. apply and_iff_compat_l.
  induction props as [|[k c] ps IH]; simpl.
  - split; [constructor|done].
  - rewrite Forall_cons, IH. done.
Qed.

Lemma wellFormed_enum lbl cases d :
  wellFormed (ConfEnum lbl cases d) ↔
  NoDup (keys cases) ∧ Forall (λ kc, wellFormed kc.2) cases.
Proof.
  simpl. apply and_iff_compat_l.
  induction cases as [|[k c] ps IH]; simpl.
  - split; [constructor|done].
  - rewrite Forall_cons, IH. done.
Qed.

(** *** Property lists *)

Lemma lookupProp_None k (o : list (string * JS.value)) :
  JS.lookupProp k o = None ↔ k ∉ keys o.
Proof.
  unfold keys. induction o as [|[k' v] o IH]; csimpl.
  - split; [intros _; apply not_elem_of_nil|done].
  - rewrite not_elem_of_cons.
    case_bool_decide as Hk; [|rewrite IH]; intuition congruence.
Qed.

Lemma lookupProp_app k (o1 o2 : list (string * JS.value)) :
  JS.lookupProp k (o1 ++ o2) =
    match JS.lookupProp k o1 with
    | Some v => Some v
    | None => JS.lookupProp k o2
    end.
Proof.
  induction o1 as [|[k' v] o1 IH]; simpl; [done|].
  by case_bool_decide.
Qed.

Section Sanitize.

Context `{EnumValues}.

Lemma sanitize_compound lbl props o :
  sanitize (ConfCompound lbl props) (JS.Object o) =
    Some (JS.Object (sanitizeFields props o)).
Proof.
  simpl. do 2 f_equal.
  induction props as [|[k c] ps IH]; simpl; [done|].
  destruct (JS.lookupProp k o) as [v|]; [|done].
  destruct (sanitize c v); by rewrite IH.
Qed.

Lemma sanitize_enum lbl cases d json :
  sanitize (ConfEnum lbl cases d) json =
    tag ← enumTag json;
    c ← selectCase tag cases;
    enumMake tag <$> sanitize c (enumPayload json).
Proof.
  simpl. destruct (enumTag json) as [tag|]; simpl; [|done].
  induction cases as [|[k c] cs IH]; simpl; [done|].
  by case_bool_decide.
Qed.

Lemma sanitizeFields_keys ps o k :
  k ∈ keys (sanitizeFields ps o) → k ∈ keys ps.
Proof.
  unfold keys. induction ps as [|[k' c] ps IH]; csimpl; [done|].
  rewrite elem_of_cons.
  destruct (JS.lookupProp k' o) as [v|]; [|by right; apply IH].
  destruct (sanitize c v); [|by right; apply IH].
  csimpl. rewrite elem_of_cons. intros [->|Hin]; [by left|by right; apply IH].
Qed.

Lemma sanitizeFields_dropped ps o k :
  k ∉ keys ps → JS.lookupProp k (sanitizeFields ps o) = None.
Proof.
  intros Hk. apply lookupProp_None. intros Hin. by apply Hk, (sanitizeFields_keys ps o).
Qed.

(** What a compound config keeps of a field. *)
Lemma sanitizeFields_lookup ps o k c :
  NoDup (keys ps) →
  (k, c) ∈ ps →
  JS.lookupProp k (sanitizeFields ps o) = JS.lookupProp k o ≫= sanitize c.
Proof.
  unfold keys. induction ps as [|[k' c'] ps IH]; csimpl; intros Hnd Hin.
  { by apply elem_of_nil in Hin. }
  apply NoDup_cons in Hnd as [Hk' Hnd].
  apply elem_of_cons in Hin as [[= <- <-]|Hin].
  - destruct (JS.lookupProp k o) as [v|] eqn:Hv; csimpl.
    + destruct (sanitize c v) as [v'|] eqn:Hs; csimpl.
      * by rewrite bool_decide_eq_true_2.
      * by apply sanitizeFields_dropped.
    + by apply sanitizeFields_dropped.
  - assert (k' ≠ k) as Hne.
    { intros ->. apply Hk'. by apply (list_elem_of_fmap_2 fst) in Hin. }
    destruct (JS.lookupProp k' o) as [v|]; [|by apply IH].
    destruct (sanitize c' v); [|by apply IH].
    csimpl. rewrite bool_decide_eq_false_2 by done. by apply IH.
Qed.

(** Sanitizing the kept fields again keeps them as they are. *)
Lemma sanitizeFields_again ps o pre :
  NoDup (keys ps) →
  (∀ k, k ∈ keys pre → k ∉ keys ps) →
  Forall (λ kc, ∀ v v', sanitize kc.2 v = Some v' → sanitize kc.2 v' = Some v') ps →
  sanitizeFields ps (pre ++ sanitizeFields ps o) = sanitizeFields ps o.
Proof.
  unfold keys. revert pre.
  induction ps as [|[k c] ps IH]; csimpl; intros pre Hnd Hpre Hall; [done|].
  apply NoDup_cons in Hnd as [Hk Hnd].
  apply Forall_cons in Hall as [Hc Hall]. simpl in Hc.
  assert (JS.lookupProp k pre = None) as Hkpre.
  { apply lookupProp_None. intros Hin. apply (Hpre k Hin), elem_of_cons. by left. }
  assert (∀ k0, k0 ∈ pre.*1 → k0 ∉ ps.*1) as Hpre'.
  { intros k0 Hin Hps. apply (Hpre k0 Hin), elem_of_cons. by right. }
  destruct (JS.lookupProp k o) as [v|] eqn:Hv.
  - destruct (sanitize c v) as [v'|] eqn:Hs.
    + rewrite lookupProp_app, Hkpre. csimpl. rewrite bool_decide_eq_true_2 by done.
      rewrite (Hc v v' Hs). f_equal.
      rewrite (cons_middle (k, v') pre), app_assoc.
      apply IH; [done| |done].
      intros k0. rewrite fmap_app, elem_of_app. intros [Hin|Hin].
      * by apply Hpre'.
      * csimpl in Hin. by apply list_elem_of_singleton in Hin as ->.
    + rewrite lookupProp_app, Hkpre, (sanitizeFields_dropped ps o k Hk).
      by apply IH.
  - rewrite lookupProp_app, Hkpre, (sanitizeFields_dropped ps o k Hk).
    by apply IH.
Qed.

Lemma selectCase_elem tag cs c :
  selectCase tag cs = Some c → (tag, c) ∈ cs.
Proof.
  induction cs as [|[k c'] cs IH]; simpl; [done|].
  case_bool_decide as Hk.
  - intros [= <-]. subst k. apply elem_of_cons. by left.
  - intros Hsel. apply elem_of_cons. right. by apply IH.
Qed.

Lemma sanitizeRgba_again v v' :
  sanitizeRgba v = Some v' → sanitizeRgba v' = Some v'.
Proof.
  unfold sanitizeRgba. destruct v as [| | | | | |o]; try done.
  destruct (finiteProp "r" o) as [cr|]; [|done].
  destruct (finiteProp "g" o) as [cg|]; [|done].
  destruct (finiteProp "b" o) as [cb|]; [|done].
  destruct (finiteProp "a" o) as [ca|]; [|done].
  by intros [= <-].
Qed.

Lemma sanitizeAsset_again kind v v' :
  sanitizeAsset kind v = Some v' → sanitizeAsset kind v' = Some v'.
Proof.
  unfold sanitizeAsset. destruct v as [| | | | | |o]; try done.
  destruct (JS.lookupProp "type" o) as [[| | | |t| |]|]; try done.
  case_bool_decide as Ht; [|done].
  destruct (from_option id JS.Undefined (JS.lookupProp "id" o)); try done;
    intros [= <-]; simpl; by rewrite bool_decide_eq_true_2.
Qed.

(** A value a config has produced is kept as it is by the same config. *)
Lemma sanitize_again config :
  wellFormed config →
  ∀ v v', sanitize config v = Some v' → sanitize config v' = Some v'.
Proof.
  induction config as [c|c|c|c|c|c|c|lbl props IH|lbl cases d IH]
    using PropTypeConfig_ind; intros Hwf v v'.
  - simpl. destruct v as [| | |[q| |]| | |]; try done. by intros [= <-].
  - simpl. destruct v; try done. by intros [= <-].
  - simpl. destruct v; try done. by intros [= <-].
  - simpl. destruct v as [| | | |s| |]; try done.
    case_bool_decide as Hs; [|done]. intros [= <-]. simpl.
    by rewrite bool_decide_eq_true_2.
  - apply sanitizeRgba_again.
  - apply sanitizeAsset_again.
  - apply sanitizeAsset_again.
  - apply wellFormed_compound in Hwf as [Hnd Hsub].
    destruct v as [| | | | | |o]; try done.
    rewrite sanitize_compound. intros [= <-]. rewrite sanitize_compound.
    do 2 f_equal.
    apply (sanitizeFields_again props o []); [done|by intros k ?%elem_of_nil|].
    rewrite Forall_forall in IH, Hsub. apply Forall_forall.
    intros kc Hin. apply IH; [done|]. by apply Hsub.
  - apply wellFormed_enum in Hwf as [Hnd Hsub].
    rewrite !sanitize_enum.
    destruct (enumTag v) as [tag|] eqn:Htag; simpl; [|done].
    destruct (selectCase tag cases) as [c|] eqn:Hsel; simpl; [|done].
    destruct (sanitize c (enumPayload v)) as [p|] eqn:Hp; simpl; [|done].
    intros [= <-]. rewrite enumTag_make. simpl.
    rewrite Hsel. simpl. rewrite enumPayload_make.
    apply selectCase_elem in Hsel.
    rewrite Forall_forall in IH, Hsub.
    pose proof (IH (tag, c) Hsel (Hsub _ Hsel) _ _ Hp) as Hagain.
    simpl in Hagain. by rewrite Hagain.
Qed.

(** C7. For a config whose mappings name no key twice: a value the
    sanitizer has produced is returned unchanged when sanitized again.
    The sanitizer of a compound config never answers [undefined] for an
    object: it answers an object that, for each declared field, holds the
    sanitized field, or lacks the field when it is missing or fails. *)
Theorem sanitize_idempotent config json :
  wellFormed config →
  (∀ v, sanitize config json = Some v → sanitize config v = Some v)
  ∧ (∀ lbl props o,
       config = ConfCompound lbl props →
       json = JS.Object o →
       ∃ fields,
         sanitize config json = Some (JS.Object fields)
         ∧ ∀ k c, (k, c) ∈ props →
             JS.lookupProp k fields = JS.lookupProp k o ≫= sanitize c).
Proof.
  intros Hwf. split.
  - intros v. by apply sanitize_again.
  - intros lbl props o -> ->. exists (sanitizeFields props o).
    split; [apply sanitize_compound|].
    intros k c Hin. apply sanitizeFields_lookup; [|done].
    by apply wellFormed_compound in Hwf as [? _].
Qed.

End Sanitize.

(** *** Closed instances *)

Definition leftInterpolator {V} : Interpolator V := λ left _ _, left.

(** The config of [{x: 0, name: "box"}]. *)
Definition demoConfig : PropTypeConfig :=
  ConfCompound None
    [("x", ConfNumber {| numberBase := {| label := None; defaultValue := 0%Qc;
                                          interpolate := leftInterpolator |};
                         range := None;
                         nudgeMultiplier := None |});
     ("name", ConfString {| label := None; defaultValue := "box";
                            interpolate := leftInterpolator |})].

(** An object whose [name] is not a string and which has a stray field. *)
Definition demoJson : JS.value :=
  JS.Object [("x", JS.Number (JS.Finite (Q2Qc 5))); ("name", JS.Null);
             ("stray", JS.Boolean true)].

Lemma demoConfig_wellFormed : wellFormed demoConfig.
Proof.
  simpl. split; [|done].
  apply NoDup_cons. split.
  - intros Hin%list_elem_of_singleton. discriminate.
  - apply NoDup_singleton.
Qed.

Example sanitize_demo :
  sanitize (H := exampleEnumValues) demoConfig demoJson
  = Some (JS.Object [("x", JS.Number (JS.Finite (Q2Qc 5)))]).
Proof. reflexivity. Qed.

Lemma sanitize_idempotent_witness :
  (∀ v, sanitize (H := exampleEnumValues) demoConfig demoJson = Some v →
        sanitize (H := exampleEnumValues) demoConfig v = Some v)
  ∧ (∀ lbl props o,
       demoConfig = ConfCompound lbl props →
       demoJson = JS.Object o →
       ∃ fields,
         sanitize (H := exampleEnumValues) demoConfig demoJson = Some (JS.Object fields)
         ∧ ∀ k c, (k, c) ∈ props →
             JS.lookupProp k fields =
               JS.lookupProp k o ≫= sanitize (H := exampleEnumValues) c).
Proof.
  apply (@sanitize_idempotent exampleEnumValues demoConfig demoJson).
  exact demoConfig_wellFormed.
Defined.

End PropTypesFacts.


(** ** Facts about the timeline player *)

Module SequencesFacts.

Import Sequences.

Lemma settle_other id s finished (ps : gmap nat promise) :
  id ≠ s → settle id finished ps !! s = ps !! s.
Proof.
  intros Hne. unfold settle.
  destruct (ps !! id) as [[|b|]|]; try done. by rewrite lookup_insert_ne.
Qed.

Lemma settle_pending id finished (ps : gmap nat promise) :
  ps !! id = Some Pending → settle id finished ps !! id = Some (Resolved finished).
Proof. intros Hp. unfold settle. rewrite Hp. apply lookup_insert_eq. Qed.

Lemma settle_resolved id s finished b (ps : gmap nat promise) :
  ps !! s = Some (Resolved b) → settle id finished ps !! s = Some (Resolved b).
Proof.
  intros Hs. destruct (decide (id = s)) as [->|Hne].
  - unfold settle. by rewrite Hs.
  - by rewrite settle_other.
Qed.

Section Player.

Context `{Advance}.

(** The promise [s] was handed out; it is pending while its playback is
    the one playing and resolved otherwise. *)
Definition tracked (s : nat) (p : player) : Prop :=
  (s < nextPromise p)%nat
  ∧ match state p with
    | Playing pb =>
        (completion pb = s ∧ promises p !! s = Some Pending)
        ∨ (completion pb ≠ s ∧ ∃ b, promises p !! s = Some (Resolved b))
    | Idle | Paused => ∃ b, promises p !! s = Some (Resolved b)
    end.

Lemma play_tracked c p s p1 :
  play c p = Some (s, p1) → tracked s p1 ∧ playingFor s p1.
Proof.
  unfold play, tracked, playingFor.
  destruct (state p); intros [= <- <-]; simpl;
    (split; [split; [lia|left; split; [done|apply lookup_insert_eq]]|done]).
Qed.

Lemma step_tracked s p ev p' :
  tracked s p → step p ev = Some p' → tracked s p'.
Proof.
  intros [Hlt Hst]. destruct ev as [c| |time]; simpl.
  - unfold play. destruct (state p) as [|pb|] eqn:Hp; simpl; [|done|];
      intros [= <-]; (split; simpl; [lia|]); right;
      (split; [lia|]); destruct Hst as [b Hb]; exists b;
      by rewrite lookup_insert_ne by lia.
  - intros [= <-]. unfold pause, tracked.
    destruct (state p) as [|pb|] eqn:Hp; simpl; rewrite ?Hp; [done| |done].
    split; [done|]. destruct Hst as [[Heq Hpend]|[Hne [b Hb]]].
    + exists false. subst s. by apply settle_pending.
    + exists b. by apply settle_resolved.
  - intros [= <-]. unfold tick, tracked.
    destruct (state p) as [|pb|] eqn:Hp; simpl; rewrite ?Hp; [done| |done].
    destruct (advance _ _ _ _) as [pos its|pos]; simpl; (split; [done|]).
    + done.
    + destruct Hst as [[Heq Hpend]|[Hne [b Hb]]].
      * exists true. subst s. by apply settle_pending.
      * exists b. by apply settle_resolved.
Qed.

Lemma run_tracked s evs p p' :
  tracked s p → run evs p = Some p' → tracked s p'.
Proof.
  revert p. induction evs as [|ev evs IH]; simpl; intros p Ht.
  - by intros [= <-].
  - destruct (step p ev) as [p1|] eqn:Hstep; [|done].
    apply IH. by apply (step_tracked s p ev).
Qed.

Lemma step_resolved s b p ev p' :
  (s < nextPromise p)%nat →
  promises p !! s = Some (Resolved b) →
  step p ev = Some p' →
  (s < nextPromise p')%nat ∧ promises p' !! s = Some (Resolved b).
Proof.
  intros Hlt Hs. destruct ev as [c| |time]; simpl.
  - unfold play. destruct (state p); simpl; [|done|];
      intros [= <-]; simpl; (split; [lia|]); by rewrite lookup_insert_ne by lia.
  - intros [= <-]. unfold pause. destruct (state p); simpl; try done.
    split; [done|]. by apply settle_resolved.
  - intros [= <-]. unfold tick. destruct (state p); simpl; try done.
    destruct (advance _ _ _ _); simpl; [done|].
    split; [done|]. by apply settle_resolved.
Qed.

Lemma run_resolved s b evs p p' :
  (s < nextPromise p)%nat →
  promises p !! s = Some (Resolved b) →
  run evs p = Some p' →
  promises p' !! s = Some (Resolved b).
Proof.
  revert p. induction evs as [|ev evs IH]; simpl; intros p Hlt Hs.
  - by intros [= <-].
  - destruct (step p ev) as [p1|] eqn:Hstep; [|done].
    destruct (step_resolved s b p ev p1 Hlt Hs Hstep) as [Hlt1 Hs1].
    by apply IH.
Qed.

Lemma tracked_playing s p :
  tracked s p → playingFor s p → promises p !! s = Some Pending.
Proof.
  intros [_ Hst]. unfold playingFor. destruct (state p) as [|pb|]; try done.
  intros Heq. by destruct Hst as [[_ ?]|[? _]].
Qed.

(** C2. From the [play()] that returned the promise on, after any events:
    the promise is pending exactly while its playback is the one playing
    and otherwise resolved, so it is never rejected; a [pause()] during the
    playback resolves it to [false]; the tick that ends the last iteration
    resolves it to [true], and any other tick leaves it pending; once
    resolved it keeps its value. *)
Theorem play_completion_promise c p s p1 :
  play c p = Some (s, p1) →
  ∀ evs q,
    run evs p1 = Some q →
    ((promises q !! s = Some Pending ∧ playingFor s q)
     ∨ (∃ b, promises q !! s = Some (Resolved b)) ∧ ¬ playingFor s q)
    ∧ (playingFor s q → promises (pause q) !! s = Some (Resolved false))
    ∧ (∀ time, playingFor s q → endsAt time q →
         promises (tick time q) !! s = Some (Resolved true))
    ∧ (∀ time, playingFor s q → ¬ endsAt time q →
         promises (tick time q) !! s = Some Pending ∧ playingFor s (tick time q))
    ∧ (∀ b evs' q',
         promises q !! s = Some (Resolved b) →
         run evs' q = Some q' →
         promises q' !! s = Some (Resolved b)).
Proof.
  intros Hplay evs q Hrun.
  destruct (play_tracked c p s p1 Hplay) as [Ht1 _].
  pose proof (run_tracked s evs p1 q Ht1 Hrun) as Htq.
  split; [|split; [|split; [|split]]].
  - destruct Htq as [_ Hst]. unfold playingFor.
    destruct (state q) as [|pb|].
    + right. split; [exact Hst|tauto].
    + destruct Hst as [[Heq Hpend]|[Hne Hres]]; [left|right]; tauto.
    + right. split; [exact Hst|tauto].
  - intros Hplaying. pose proof (tracked_playing s q Htq Hplaying) as Hpend.
    unfold playingFor in Hplaying. unfold pause.
    destruct (state q) as [|pb|]; try done. simpl. subst s.
    by apply settle_pending.
  - intros time Hplaying Hends.
    pose proof (tracked_playing s q Htq Hplaying) as Hpend.
    unfold playingFor in Hplaying. unfold endsAt in Hends. unfold tick.
    destruct (state q) as [|pb|]; try done. destruct Hends as [pos ->]. simpl.
    subst s. by apply settle_pending.
  - intros time Hplaying Hgoes.
    pose proof (tracked_playing s q Htq Hplaying) as Hpend.
    unfold playingFor in *. unfold endsAt in Hgoes. unfold tick.
    destruct (state q) as [|pb|]; try done.
    destruct (advance _ _ _ _) as [pos its|pos]; simpl; [done|].
    exfalso. apply Hgoes. by exists pos.
  - intros b evs' q' Hres Hrun'.
    destruct Htq as [Hlt _]. by apply (run_resolved s b evs' q).
Qed.

End Player.

(** *** Closed instances *)

(** One iteration over [0, 1] at rate 1. *)
Definition onceThrough : playConf :=
  {| iterationCount := Some 1%positive;
     range := (0%Qc, 1%Qc);
     rate := 1%Qc;
     direction := Normal |}.

(** The player right after [play(onceThrough)] on an idle player. *)
Definition started : player :=
  {| state := Playing {| conf := onceThrough; iterationsDone := 0;
                         lastTick := None; completion := 0 |};
     position := 0%Qc;
     promises := <[0%nat := Pending]> ∅;
     nextPromise := 1 |}.

(** The player after ticks at 0 and 1/2. *)
Definition halfway : player :=
  {| state := Playing {| conf := onceThrough; iterationsDone := 0;
                         lastTick := Some (Q2Qc (1 # 2)); completion := 0 |};
     position := Q2Qc (1 # 2);
     promises := <[0%nat := Pending]> ∅;
     nextPromise := 1 |}.

Lemma play_completion_promise_witness :
  ((promises halfway !! 0%nat = Some Pending ∧ playingFor 0 halfway)
   ∨ (∃ b, promises halfway !! 0%nat = Some (Resolved b)) ∧ ¬ playingFor 0 halfway)
  ∧ (playingFor 0 halfway → promises (pause halfway) !! 0%nat = Some (Resolved false))
  ∧ (∀ time, playingFor 0 halfway → endsAt (H := forwardAdvance) time halfway →
       promises (tick (H := forwardAdvance) time halfway) !! 0%nat = Some (Resolved true))
  ∧ (∀ time, playingFor 0 halfway → ¬ endsAt (H := forwardAdvance) time halfway →
       promises (tick (H := forwardAdvance) time halfway) !! 0%nat = Some Pending
       ∧ playingFor 0 (tick (H := forwardAdvance) time halfway))
  ∧ (∀ b evs' q',
       promises halfway !! 0%nat = Some (Resolved b) →
       run (H := forwardAdvance) evs' halfway = Some q' →
       promises q' !! 0%nat = Some (Resolved b)).
Proof.
  apply (@play_completion_promise forwardAdvance onceThrough idlePlayer 0 started
           eq_refl [Tick 0%Qc; Tick (Q2Qc (1 # 2))] halfway).
  vm_compute. reflexivity.
Defined.

(** Ticks at 0, 1/2 and 1 play the range through: the promise resolves
    to [true] and the playhead rests at the end of the range. *)
Example plays_to_the_end :
  (λ q, (promises q !! 0%nat, position q)) <$>
    run (H := forwardAdvance)
      [Play onceThrough; Tick 0%Qc; Tick (Q2Qc (1 # 2)); Tick 1%Qc] idlePlayer
  = Some (Some (Resolved true), 1%Qc).
Proof. vm_compute. reflexivity. Qed.

(** A pause after the second tick resolves the promise to [false] and
    freezes the playhead; later ticks change neither. *)
Example pause_interrupts :
  (λ q, (promises q !! 0%nat, position q)) <$>
    run (H := forwardAdvance)
      [Play onceThrough; Tick 0%Qc; Tick (Q2Qc (1 # 2)); Pause; Tick 1%Qc] idlePlayer
  = Some (Some (Resolved false), Q2Qc (1 # 2)).
Proof. vm_compute. reflexivity. Qed.

End SequencesFacts.


(** ** More on [getProject] and its validators *)

Module CoreMore.

Import Eff Core CoreFacts.

(** *** Identifiers, character by character *)

Definition startsWithWhiteSpace (s : string) : bool :=
  match s with
  | EmptyString => false
  | String.String c _ => JS.isWhiteSpace c
  end.

Fixpoint endsWithWhiteSpace (s : string) : bool :=
  match s with
  | EmptyString => false
  | String.String c EmptyString => JS.isWhiteSpace c
  | String.String _ rest => endsWithWhiteSpace rest
  end.

Lemma trimStart_fixed_iff (s : string) :
  JS.trimStart s = s ↔ startsWithWhiteSpace s = false.
Proof.
  destruct s as [|c rest]; simpl; [done|].
  destruct (JS.isWhiteSpace c) eqn:Hc; [|done].
  split; [|done]. intros Heq.
  pose proof (trimStart_length rest) as Hlen.
  rewrite Heq in Hlen. simpl in Hlen. lia.
Qed.

Lemma trimEnd_fixed_iff (s : string) :
  JS.trimEnd s = s ↔ endsWithWhiteSpace s = false.
Proof.
  induction s as [|c rest IH]; [done|].
  destruct rest as [|d rest'].
  - simpl. destruct (JS.isWhiteSpace c); [|done]. split; discriminate.
  - change (JS.trimEnd (String.String c (String.String d rest')))
      with (match JS.trimEnd (String.String d rest') with
            | EmptyString =>
                if JS.isWhiteSpace c then EmptyString else String.String c EmptyString
            | rest0 => String.String c rest0
            end).
    change (endsWithWhiteSpace (String.String c (String.String d rest')))
      with (endsWithWhiteSpace (String.String d rest')).
    rewrite <- IH.
    destruct (JS.trimEnd (String.String d rest')) as [|e rest0].
    + split; [|discriminate]. destruct (JS.isWhiteSpace c); discriminate.
    + split; [by intros [= -> ->]|by intros ->].
Qed.

Lemma trim_fixed_iff (s : string) :
  JS.trim s = s ↔ startsWithWhiteSpace s = false ∧ endsWithWhiteSpace s = false.
Proof.
  rewrite <- trimStart_fixed_iff, <- trimEnd_fixed_iff. split.
  - intros Heq.
    assert (String.length (JS.trim s) = String.length s) as Hlen by by rewrite Heq.
    unfold JS.trim in *.
    pose proof (trimEnd_length (JS.trimStart s)).
    pose proof (trimStart_length s).
    assert (JS.trimStart s = s) as Hs by (apply trimStart_fixed; lia).
    split; [done|]. by rewrite Hs in Heq.
  - intros [Hs He]. unfold JS.trim. by rewrite Hs.
Qed.

Section WithImports.

Context `{Imports}.

(** X8. [validateProjectIdOrThrow] lets through exactly the strings of at
    least three characters whose first and last characters are not white
    space; white space inside the identifier is allowed. *)
Theorem validateProjectIdOrThrow_accepts_by_characters (id : JS.value) :
  validateProjectIdOrThrow id = inr tt
  ↔ ∃ s, id = JS.String s
         ∧ (3 ≤ String.length s)%nat
         ∧ startsWithWhiteSpace s = false
         ∧ endsWithWhiteSpace s = false.
Proof.
  split.
  - intros Hok. pose proof (validateProjectIdOrThrow_ok id Hok) as Hgood.
    destruct id as [| |b|n|s|elems|props]; try (exfalso; apply Hgood; exact I).
    exists s. simpl in Hgood.
    destruct (decide (JS.trim s = s)) as [Heq|Hne]; [|tauto].
    apply trim_fixed_iff in Heq as [Hs He].
    assert (¬ (String.length s < 3)%nat) by tauto.
    split; [done|]. split; [lia|]. done.
  - intros (s & -> & Hlen & Hs & He). simpl.
    assert (JS.trim s = s) as -> by by apply trim_fixed_iff.
    rewrite bool_decide_eq_true_2 by done. simpl.
    by rewrite bool_decide_eq_false_2 by lia.
Qed.

(** X17. Which error a rejected identifier gets: a value that is not a
    string is told its type; a string that trimming changes is told about
    the surrounding white space, even when it is also too short; a string
    that trimming leaves alone but that has fewer than three characters is
    told it is too short. *)
Theorem validateProjectIdOrThrow_errors (id : JS.value) :
  (JS.typeof id ≠ JS.TString →
   validateProjectIdOrThrow id =
     inl (JS.InvalidArgumentError
            (JS.MsgProjectIdNotString (userReadableTypeOfValue id))))
  ∧ (∀ s, id = JS.String s → JS.trim s ≠ s →
       validateProjectIdOrThrow id =
         inl (JS.InvalidArgumentError (JS.MsgProjectIdWhitespace s)))
  ∧ (∀ s, id = JS.String s → JS.trim s = s → (String.length s < 3)%nat →
       validateProjectIdOrThrow id =
         inl (JS.InvalidArgumentError (JS.MsgProjectIdTooShort s))).
Proof.
  split; [|split].
  - by destruct id.
  - intros s -> Hws%trim_changes_iff_length. simpl.
    by rewrite bool_decide_eq_false_2.
  - intros s -> Heq Hshort. simpl. rewrite Heq.
    rewrite bool_decide_eq_true_2 by done. simpl.
    by rewrite bool_decide_eq_true_2.
Qed.

(** *** Calls that throw *)

Lemma getProject_throw_unchanged env id config st e st' :
  getProject env id config st = (inl e, st') →
  projects st' = projects st ∧ nextObjectId st' = nextObjectId st.
Proof.
  destruct (projects st !! projectKey id) as [q|] eqn:Hq.
  - rewrite (getProject_existing _ _ _ q) by done.
    destruct (_ && _); [|done]. by intros [= <- <-].
  - rewrite (getProject_fresh_unfold env id config st Hq).
    destruct (freshChecks env id (configOrDefault config)) as [[e0 log]|log];
      [|done].
    by intros [= <- <-].
Qed.

(** X9. A [getProject] call that throws registers no project and hands
    out no public API object: the projects and the allocator are as they
    were before the call. *)
Theorem getProject_throw_registers_nothing env id config st e st' :
  getProject env id config st = (inl e, st') →
  projects st' = projects st ∧ nextObjectId st' = nextObjectId st.
Proof. apply getProject_throw_unchanged. Qed.

(** X10. The default of the [config] parameter replaces [undefined] only:
    with [null] for config, and no project registered under an identifier
    that passes the non-production checks, reading [config.state] throws a
    [TypeError] and no project is created. *)
Theorem getProject_null_config_throws env id st :
  projects st !! projectKey id = None →
  (notProduction env = true →
   validateNameOrThrow id = inr tt ∧ validateProjectIdOrThrow id = inr tt) →
  ∃ st',
    getProject env id JS.Null st =
      (inl (JS.TypeError (JS.MsgCannotReadProperty "state")), st')
    ∧ projects st' = projects st
    ∧ nextObjectId st' = nextObjectId st.
Proof.
  intros Hfresh Hid.
  rewrite (getProject_fresh_unfold env id JS.Null st Hfresh).
  unfold freshChecks. simpl.
  destruct env; simpl.
  - eauto.
  - destruct (Hid eq_refl) as [-> ->]. eauto.
Qed.

(** *** Calls that create *)

(** X11. A project is created only after the checks: when a call that
    found no project under the identifier returns, [config.state] was
    falsy, or else it was not an array and carried the expected
    [definitionVersion]; in a non-production build the identifier was,
    moreover, accepted by [validateName] and not malformed. *)
Theorem getProject_created_was_checked env id config st api st' :
  projects st !! projectKey id = None →
  getProject env id config st = (inr api, st') →
  (∃ state,
     JS.getMember (configOrDefault config) "state" = inr state
     ∧ (JS.truthy state = true →
        JS.isArray state = false ∧ versionMismatch state = false))
  ∧ (notProduction env = true →
     validateNameOrThrow id = inr tt ∧ ¬ malformedProjectId id).
Proof.
  intros Hfresh. rewrite (getProject_fresh_unfold env id config st Hfresh).
  unfold freshChecks.
  assert (∀ state,
            JS.truthy state = true →
            shallowValidateOnDiskState id state = inr tt →
            JS.truthy state = true →
            JS.isArray state = false ∧ versionMismatch state = false) as Hst.
  { intros state _ Hv%shallowValidateOnDiskState_accepts _. tauto. }
  destruct env; simpl.
  - destruct (JS.getMember _ _) as [e|state] eqn:Hstate; [done|].
    destruct (JS.truthy state) eqn:Ht.
    + destruct (shallowValidateOnDiskState id state) as [e|[]] eqn:Hv; [done|].
      intros _. split; [|done]. exists state. split; [done|]. by apply Hst.
    + intros _. split; [|done]. exists state. split; [done|]. intros ?; congruence.
  - destruct (validateNameOrThrow id) as [?|[]] eqn:Hname; [done|].
    destruct (validateProjectIdOrThrow id) as [?|[]] eqn:Hid; [done|].
    destruct (JS.getMember _ _) as [e|state] eqn:Hstate; [done|].
    assert (validateNameOrThrow id = inr () ∧ ¬ malformedProjectId id) as Hidok.
    { split; [done|]. by apply validateProjectIdOrThrow_ok. }
    destruct (JS.truthy state) eqn:Ht.
    + destruct (shallowValidateOnDiskState id state) as [e|[]] eqn:Hv; [done|].
      intros _. split; [|intros _; split; [done|apply Hidok]].
      exists state. split; [done|]. by apply Hst.
    + intros _. split; [|intros _; split; [done|apply Hidok]].
      exists state. split; [done|]. intros ?; congruence.
Qed.

(** *** What every registered key satisfies *)

(** Every key of the registry is an identifier that is not malformed. *)
Definition wellKeyed (st : store) : Prop :=
  ∀ k p, projects st !! k = Some p → ¬ malformedProjectId (JS.String k).

Lemma freshChecks_development_ok id config log :
  freshChecks Development id config = inr log →
  validateProjectIdOrThrow id = inr tt.
Proof.
  unfold freshChecks. simpl.
  destruct (validateNameOrThrow id) as [?|[]]; [done|].
  by destruct (validateProjectIdOrThrow id) as [?|[]].
Qed.

Lemma getProject_wellKeyed id config st :
  wellKeyed st → wellKeyed (getProject Development id config st).2.
Proof.
  intros Hwk.
  destruct (projects st !! projectKey id) as [q|] eqn:Hq.
  { rewrite (getProject_existing _ _ _ q) by done. by destruct (_ && _). }
  rewrite (getProject_fresh_unfold Development id config st Hq).
  destruct (freshChecks Development id (configOrDefault config))
    as [[e log]|log] eqn:Hchecks; simpl.
  { intros k p. simpl. apply Hwk. }
  apply freshChecks_development_ok, validateProjectIdOrThrow_ok in Hchecks.
  intros k p. simpl.
  destruct (decide (projectKey id = k)) as [<-|Hne].
  - intros _.
    destruct id as [| |b|n|s|elems|props]; try (exfalso; apply Hchecks; exact I).
    exact Hchecks.
  - rewrite lookup_insert_ne by done. apply Hwk.
Qed.

(** X12. In a non-production build [getProject] keeps the registry well
    keyed: if every registered key is a string of at least three
    characters without surrounding white space, the same holds after any
    sequence of calls, whatever their arguments and whether they return
    or throw. *)
Theorem getProjects_keep_wellKeyed calls st :
  wellKeyed st → wellKeyed (getProjects Development calls st).
Proof.
  revert st. induction calls as [|call calls IH]; intros st Hwk; [done|].
  simpl. apply IH. by apply getProject_wellKeyed.
Qed.

End WithImports.

(** *** Closed instances *)

Lemma getProject_throw_registers_nothing_witness :
  projects
    (getProject (H := exampleImports) Development (JS.String "Demo project")
       (JS.Object [("state", JS.Array [])]) emptyStore).2
  = projects emptyStore
  ∧ nextObjectId
      (getProject (H := exampleImports) Development (JS.String "Demo project")
         (JS.Object [("state", JS.Array [])]) emptyStore).2
    = nextObjectId emptyStore.
Proof.
  apply (@getProject_throw_registers_nothing exampleImports Development
           (JS.String "Demo project") (JS.Object [("state", JS.Array [])]) emptyStore
           (JS.InvalidArgumentError (JS.MsgStateUnreadable (JS.String "Demo project")))).
  reflexivity.
Defined.

Lemma getProject_null_config_throws_witness :
  ∃ st',
    getProject (H := exampleImports) Development (JS.String "Demo project") JS.Null
      emptyStore
    = (inl (JS.TypeError (JS.MsgCannotReadProperty "state")), st')
    ∧ projects st' = projects emptyStore
    ∧ nextObjectId st' = nextObjectId emptyStore.
Proof.
  apply (@getProject_null_config_throws exampleImports Development
           (JS.String "Demo project") emptyStore).
  - reflexivity.
  - intros _. split; reflexivity.
Defined.

Lemma getProject_created_was_checked_witness :
  (∃ state,
     JS.getMember
       (configOrDefault
          (JS.Object [("state", JS.Object [("definitionVersion", JS.String "0.4.0")])]))
       "state" = inr state
     ∧ (JS.truthy state = true →
        JS.isArray state = false
        ∧ versionMismatch (H := exampleImports) state = false))
  ∧ (notProduction Development = true →
     validateNameOrThrow (H := exampleImports) (JS.String "Demo project") = inr tt
     ∧ ¬ malformedProjectId (JS.String "Demo project")).
Proof.
  apply (@getProject_created_was_checked exampleImports Development
           (JS.String "Demo project")
           (JS.Object [("state", JS.Object [("definitionVersion", JS.String "0.4.0")])])
           emptyStore {| objectId := 0 |}
           (getProject (H := exampleImports) Development (JS.String "Demo project")
              (JS.Object [("state", JS.Object [("definitionVersion", JS.String "0.4.0")])])
              emptyStore).2).
  - reflexivity.
  - reflexivity.
Defined.

Lemma getProjects_keep_wellKeyed_witness :
  wellKeyed
    (getProjects (H := exampleImports) Development
       [(JS.String "Demo project", JS.Undefined);
        (JS.String " x", JS.Undefined);
        (JS.Null, JS.Undefined)]
       emptyStore).
Proof.
  apply (@getProjects_keep_wellKeyed exampleImports
           [(JS.String "Demo project", JS.Undefined);
            (JS.String " x", JS.Undefined);
            (JS.Null, JS.Undefined)]
           emptyStore).
  intros k p Hk. simpl in Hk. by rewrite lookup_empty in Hk.
Defined.

End CoreMore.


(** ** More on [onChange] and [val] *)

Module ChangeMore.

Import Eff Dataverse Change Reading ChangeFacts.

(** X13. Handed a raf driver that has no private API in the side table,
    [onChange] throws a [TypeError] while reading [.ticker], whatever its
    first argument is, and changes nothing: no subscription, no call, no
    core ticker. *)
Theorem onChange_unregistered_driver_throws pointer callback driver w :
  PrivateAPIs.privateAPI (driverId driver) (privateAPIs w) = None →
  onChange pointer callback (Some driver) w
  = (inl (JS.TypeError (JS.MsgCannotReadProperty "ticker")), w).
Proof.
  intros Hnone. rewrite onChange_unfold.
  by rewrite (tickerOf_unregistered driver w Hnone).
Qed.

(** X14. After [setPrivateAPI(driver, priv)], [onChange] with that driver
    on a pointer or a prism returns and subscribes on [priv.ticker]; the
    core ticker is neither read nor made. *)
Theorem onChange_after_setPrivateAPI pointer pr callback driver priv w :
  observed pointer = Some pr →
  let w1 :=
    {| privateAPIs := PrivateAPIs.setPrivateAPI (driverId driver) priv (privateAPIs w);
       coreTicker := coreTicker w;
       nextTicker := nextTicker w;
       graph := graph w |} in
  ∃ id w',
    onChange pointer callback (Some driver) w1 = (inr id, w')
    ∧ subscriptions (graph w') !! id =
        Some {| subPrism := pr; subTicker := ticker priv; subCallback := callback;
                subLast := Some (getValue pr (graph w)) |}
    ∧ coreTicker w' = coreTicker w
    ∧ nextTicker w' = nextTicker w.
Proof.
  intros Hobs w1. rewrite onChange_unfold.
  rewrite (tickerOf_registered driver priv w1) by apply lookup_insert_eq.
  rewrite Hobs. eexists _, _. split; [done|]. simpl.
  split; [apply lookup_insert_eq|done].
Qed.

(** X15. [val] refuses a prism, although [onChange] accepts it: for every
    prism, [val] throws its [Error], while [onChange] without a raf driver
    returns an unsubscribe handle. *)
Theorem val_refuses_prism_onChange_accepts pr callback w :
  val (ArgPrism pr) (graph w)
  = inl (JS.Error (JS.MsgText "Called val(p) where p is not a pointer."))
  ∧ (onChange (ArgPrism pr) callback None w).1 = inr (nextSubscription (graph w)).
Proof.
  split; [done|]. rewrite onChange_unfold.
  pose proof (tickerOf_graph None w) as Hg.
  destruct (tickerOf None w) as [[e|t] w1] eqn:Ht.
  - simpl in Ht. unfold getCoreTicker in Ht. by destruct (coreTicker w).
  - simpl in Hg. simpl. by rewrite Hg.
Qed.

(** *** Closed instances *)

Lemma onChange_unregistered_driver_throws_witness :
  onChange (ArgPointer {| pointerPath := ["x"] |}) 5 (Some {| driverId := 4 |}) demoWorld
  = (inl (JS.TypeError (JS.MsgCannotReadProperty "ticker")), demoWorld).
Proof.
  apply (onChange_unregistered_driver_throws
           (ArgPointer {| pointerPath := ["x"] |}) 5 {| driverId := 4 |} demoWorld).
  reflexivity.
Defined.

Lemma onChange_after_setPrivateAPI_witness :
  ∃ id w',
    onChange (ArgPrism {| prismPath := ["x"] |}) 5 (Some {| driverId := 9 |})
      {| privateAPIs := PrivateAPIs.setPrivateAPI 9 {| ticker := 2 |} (privateAPIs demoWorld);
         coreTicker := coreTicker demoWorld;
         nextTicker := nextTicker demoWorld;
         graph := graph demoWorld |}
    = (inr id, w')
    ∧ subscriptions (graph w') !! id =
        Some {| subPrism := {| prismPath := ["x"] |}; subTicker := 2; subCallback := 5;
                subLast := Some (getValue {| prismPath := ["x"] |} (graph demoWorld)) |}
    ∧ coreTicker w' = coreTicker demoWorld
    ∧ nextTicker w' = nextTicker demoWorld.
Proof.
  apply (onChange_after_setPrivateAPI (ArgPrism {| prismPath := ["x"] |})
           {| prismPath := ["x"] |} 5 {| driverId := 9 |} {| ticker := 2 |} demoWorld).
  reflexivity.
Defined.

End ChangeMore.
